(** * tonal: tonal pitch and interval arithmetic (tonal.c, tonal_priv.h)

    A shallow embedding of the validation, conversion and Tonal Element
    arithmetic functions of tonal.c, and the properties of them that the
    library specification states.

    Conventions of the embedding.
    - A C [int] is a [Z].  Signed overflow is undefined in C: every
      arithmetic operator of the source goes through a checked operator that
      yields [Undefined] when the mathematical result leaves
      [INT_MIN .. INT_MAX].
    - [assert] is active (the Makefile of the tests compiles tonal.c without
      NDEBUG): a failed assertion yields [Abort].
    - A function that writes through a pointer takes the previous content of
      the pointed object and returns its content at the time of return, next
      to the returned status.  Pointers are never NULL here, so the NULL
      guards of the source have no counterpart.
    - The source views the first two fields of a tonal_element, tonal_pitch
      or tonal_interval through a pointer to the corresponding class struct.
      The records below nest the class record, so that the cast is a
      projection and a write through the cast pointer is an update of the
      nested record. *)

From Stdlib Require Import ZArith List Bool Lia.
Import ListNotations.
Local Open Scope Z_scope.

(** ** Outcomes of a call *)

Inductive outcome (A : Type) : Type :=
| Done (a : A)
| Abort
| Undefined.

Arguments Done {A} a.
Arguments Abort {A}.
Arguments Undefined {A}.

Definition bind {A B : Type} (m : outcome A) (k : A -> outcome B) : outcome B :=
  match m with
  | Done a => k a
  | Abort => Abort
  | Undefined => Undefined
  end.

Notation "x <- m ;; k" := (bind m (fun x => k))
  (at level 61, m at next level, right associativity).
Notation "m ;;; k" := (bind m (fun _ => k))
  (at level 61, right associativity).

Definition assert (b : bool) : outcome unit :=
  if b then Done tt else Abort.

(** ** C int arithmetic *)

Definition INT_MIN : Z := -2147483648.
Definition INT_MAX : Z := 2147483647.

Definition in_int (z : Z) : bool := (INT_MIN <=? z) && (z <=? INT_MAX).

Definition checked (z : Z) : outcome Z :=
  if in_int z then Done z else Undefined.

Definition iadd (x y : Z) : outcome Z := checked (x + y).
Definition isub (x y : Z) : outcome Z := checked (x - y).
Definition imul (x y : Z) : outcome Z := checked (x * y).
Definition ineg (x : Z) : outcome Z := checked (- x).
(* Division truncates toward zero; the divisors of the source are the
   constant 7, so the quotient is always representable. *)
Definition idiv (x y : Z) : outcome Z := checked (Z.quot x y).

(** ** tonal.h: enumerations and public structs *)

Definition DP_C : Z := 0.
Definition DP_D : Z := 1.
Definition DP_E : Z := 2.
Definition DP_F : Z := 3.
Definition DP_G : Z := 4.
Definition DP_A : Z := 5.
Definition DP_B : Z := 6.
Definition DP_NONE : Z := 7.

Definition PA_bb : Z := 0.
Definition PA_b : Z := 1.
Definition PA_ : Z := 2.
Definition PA_s : Z := 3.
Definition PA_ss : Z := 4.
Definition PA_NONE : Z := 5.

Definition DI_PRIME : Z := 0.
Definition DI_SECOND : Z := 1.
Definition DI_THIRD : Z := 2.
Definition DI_FOURTH : Z := 3.
Definition DI_FIFTH : Z := 4.
Definition DI_SIXTH : Z := 5.
Definition DI_SEVENTH : Z := 6.
Definition DI_NONE : Z := 7.

Definition IA_DIMINISHED : Z := 0.
Definition IA_MINOR : Z := 1.
Definition IA_MAJOR : Z := 2.
Definition IA_PERFECT : Z := 3.
Definition IA_AUGMENTED : Z := 4.
Definition IA_NONE : Z := 5.

Definition ID_UP : Z := 0.
Definition ID_DOWN : Z := 1.
Definition ID_NONE : Z := 2.

(** Function return values. *)
Inductive status : Type := TONAL_OK | TONAL_FAIL.

Definition is_ok (s : status) : bool :=
  match s with TONAL_OK => true | TONAL_FAIL => false end.

Record tonal_pitch_class : Type := mk_tpc {
  diatonic_pitch : Z;
  pitch_alteration : Z
}.

Record tonal_pitch : Type := mk_tp {
  tp_class : tonal_pitch_class;
  tp_octave : Z
}.

Record tonal_interval_class : Type := mk_tic {
  diatonic_interval : Z;
  interval_alteration : Z
}.

Record tonal_interval : Type := mk_ti {
  ti_class : tonal_interval_class;
  ti_octave : Z;
  interval_direction : Z
}.

(** ** tonal_priv.h: the unified representations *)

Record tonal_class : Type := mk_tc {
  diatonic_point : Z;
  alteration : Z
}.

Record tonal_element : Type := mk_te {
  te_class : tonal_class;
  octave : Z
}.

(** Modelled from the spec: tonal_priv.h declares TONAL_ELEMENT_ZERO extern
    and no source file under src/ defines it; the specification gives
    ZERO = {point 0, alteration 0, octave 0}. *)
Definition TONAL_ELEMENT_ZERO : tonal_element := mk_te (mk_tc 0 0) 0.

(** ** Validation *)

(* The character constant 'x' (120) marks the illegal combinations. *)
Definition CHAR_x : Z := 120.

Definition TIC_TO_TC_TABLE : list (list Z) :=
(*              DIM   MINOR   MAJOR    PERF  AUG *)
(* PRIME   *) [ [ -1; CHAR_x; CHAR_x;      0;  1 ];
(* SECOND  *)   [ -2;     -1;      0; CHAR_x;  1 ];
(* THIRD   *)   [ -2;     -1;      0; CHAR_x;  1 ];
(* FOURTH  *)   [ -1; CHAR_x; CHAR_x;      0;  1 ];
(* FIFTH   *)   [ -1; CHAR_x; CHAR_x;      0;  1 ];
(* SIXTH   *)   [ -2;     -1;      0; CHAR_x;  1 ];
(* SEVENTH *)   [ -2;     -1;      0; CHAR_x;  1 ] ].

(* TIC_TO_TC_TABLE[di][ia]; the source only indexes after both range
   checks, the defaults are never reached. *)
Definition tic_to_tc_table (di ia : Z) : Z :=
  nth (Z.to_nat ia) (nth (Z.to_nat di) TIC_TO_TC_TABLE []) 0.

Definition validate_diatonic_point (dt : Z) : status :=
  if (0 <=? dt) && (dt <=? 6) then TONAL_OK else TONAL_FAIL.

Definition validate_alteration (a : Z) : status :=
  if (-2 <=? a) && (a <=? 2) then TONAL_OK else TONAL_FAIL.

Definition validate_tc (tc : tonal_class) : status :=
  let ret := validate_diatonic_point (diatonic_point tc) in
  if negb (is_ok ret) then ret else
  let ret := validate_alteration (alteration tc) in
  if negb (is_ok ret) then ret else
  TONAL_OK.

Definition validate_te (te : tonal_element) : status :=
  validate_tc (te_class te).

Definition validate_diatonic_pitch (dp : Z) : status :=
  if (DP_C <=? dp) && (dp <=? DP_B) then TONAL_OK else TONAL_FAIL.

Definition validate_pitch_alteration (pa : Z) : status :=
  if (PA_bb <=? pa) && (pa <=? PA_ss) then TONAL_OK else TONAL_FAIL.

Definition validate_tpc (tpc : tonal_pitch_class) : status :=
  let ret := validate_diatonic_pitch (diatonic_pitch tpc) in
  if negb (is_ok ret) then ret else
  let ret := validate_pitch_alteration (pitch_alteration tpc) in
  if negb (is_ok ret) then ret else
  TONAL_OK.

Definition validate_tp (tp : tonal_pitch) : status :=
  (* NOTE: Restricts the tonal pitch octave to positive. *)
  if tp_octave tp <? 0 then TONAL_FAIL else
  validate_tpc (tp_class tp).

Definition validate_diatonic_interval (di : Z) : status :=
  if (DI_PRIME <=? di) && (di <=? DI_SEVENTH) then TONAL_OK else TONAL_FAIL.

Definition validate_interval_alteration (ia : Z) : status :=
  if (IA_DIMINISHED <=? ia) && (ia <=? IA_AUGMENTED) then TONAL_OK
  else TONAL_FAIL.

Definition validate_tic (tic : tonal_interval_class) : status :=
  let di := diatonic_interval tic in
  let ia := interval_alteration tic in
  let ret := validate_diatonic_interval di in
  if negb (is_ok ret) then ret else
  let ret := validate_interval_alteration ia in
  if negb (is_ok ret) then ret else
  if CHAR_x =? tic_to_tc_table di ia then TONAL_FAIL else
  TONAL_OK.

Definition validate_interval_octave (interval_octave : Z) : status :=
  if 0 <=? interval_octave then TONAL_OK else TONAL_FAIL.

Definition validate_interval_direction (dir : Z) : status :=
  if (dir =? ID_UP) || (dir =? ID_DOWN) then TONAL_OK else TONAL_FAIL.

Definition validate_ti (ti : tonal_interval) : status :=
  (* ret = validate_tic(...); the next assignment overwrites it untested *)
  let ret := validate_tic (ti_class ti) in
  let ret := validate_interval_octave (ti_octave ti) in
  if negb (is_ok ret) then ret else
  let ret := validate_interval_direction (interval_direction ti) in
  if negb (is_ok ret) then ret else
  (* A prime may be either perfect or augmented, never diminished. *)
  if (0 =? ti_octave ti)
     && (DI_PRIME =? diatonic_interval (ti_class ti))
     && (IA_DIMINISHED =? interval_alteration (ti_class ti))
  then TONAL_FAIL else
  ret.

(** ** Music Pitch Class and the two projections *)

(* Mapping from Diatonic PoinT to Music Pitch Class *)
Definition DT_TO_MPC_TABLE : list Z := [0; 2; 4; 5; 7; 9; 11].

Definition dt_get_mpc_value (dt : Z) : Z :=
  if (dt <? 0) || (Z.of_nat (length DT_TO_MPC_TABLE) <=? dt) then INT_MIN
  else nth (Z.to_nat dt) DT_TO_MPC_TABLE 0.

(* Extends Music Pitch Class to {-2..13}. *)
Definition tc_get_mpc_value (tc : tonal_class) : outcome Z :=
  let ret := validate_tc tc in
  if negb (is_ok ret) then Done INT_MIN else
  mpc <- iadd (dt_get_mpc_value (diatonic_point tc)) (alteration tc) ;;
  assert ((-2 <=? mpc) && (mpc <=? 13)) ;;;
  Done mpc.

Definition te_get_diatonic_value (te : tonal_element) : outcome Z :=
  let ret := validate_te te in
  if negb (is_ok ret) then Done INT_MIN else
  m <- imul 7 (octave te) ;;
  iadd m (diatonic_point (te_class te)).

Definition te_get_chromatic_value (te : tonal_element) : outcome Z :=
  let ret := validate_te te in
  if negb (is_ok ret) then Done INT_MIN else
  m <- imul 12 (octave te) ;;
  v <- tc_get_mpc_value (te_class te) ;;
  iadd m v.

(** ** Tonal Element arithmetic *)

(* The first block of te_from_dv_cv ("Do modulo arithmetic"): the octave o
   and the reduced dv and cv, in this order. *)
Definition te_reduce (dv cv : Z) : outcome (Z * Z * Z) :=
  o <- (if dv <=? 0
        then (d <- isub dv 6 ;; idiv d 7)
        else idiv dv 7) ;;
  o7 <- imul o 7 ;;
  dv <- isub dv o7 ;;
  o12 <- imul o 12 ;;
  cv <- isub cv o12 ;;
  Done (o, dv, cv).

(* Implement Proposition 1.  [te] is the previous content of the object
   written to. *)
Definition te_from_dv_cv (te : tonal_element) (dv cv : Z)
  : outcome (status * tonal_element) :=
  r <- te_reduce dv cv ;;
  let '(o, dv, cv) := r in
  (* NOTE: Magic numbers *)
  if (cv <? -2) || (13 <? cv) then Done (TONAL_FAIL, te) else
  assert (is_ok (validate_diatonic_point dv)) ;;;
  let te := mk_te (mk_tc dv 0) 0 in
  c <- te_get_chromatic_value te ;;
  a <- isub cv c ;;
  let ret := validate_alteration a in
  if negb (is_ok ret) then Done (ret, te) else
  let te := mk_te (mk_tc dv a) o in
  assert (is_ok (validate_te te)) ;;;
  Done (TONAL_OK, te).

(* Invert Tonal Element (in place). *)
Definition te_inv (te : tonal_element) : outcome (status * tonal_element) :=
  let ret := validate_te te in
  if negb (is_ok ret) then Done (ret, te) else
  d <- te_get_diatonic_value te ;;
  dv <- ineg d ;;
  c <- te_get_chromatic_value te ;;
  cv <- ineg c ;;
  te_from_dv_cv te dv cv.

(* Definition 1.  [te2] is the previous content of the output object. *)
Definition te_add (te0 te1 te2 : tonal_element)
  : outcome (status * tonal_element) :=
  let ret := validate_te te0 in
  if negb (is_ok ret) then Done (ret, te2) else
  let ret := validate_te te1 in
  if negb (is_ok ret) then Done (ret, te2) else
  d0 <- te_get_diatonic_value te0 ;;
  d1 <- te_get_diatonic_value te1 ;;
  dv <- iadd d0 d1 ;;
  c0 <- te_get_chromatic_value te0 ;;
  c1 <- te_get_chromatic_value te1 ;;
  cv <- iadd c0 c1 ;;
  te_from_dv_cv te2 dv cv.

Definition te_sub (te0 te1 te2 : tonal_element)
  : outcome (status * tonal_element) :=
  let ret := validate_te te0 in
  if negb (is_ok ret) then Done (ret, te2) else
  let ret := validate_te te1 in
  if negb (is_ok ret) then Done (ret, te2) else
  (* memcpy(&te_tmp, te1, sizeof te_tmp) *)
  let te_tmp := te1 in
  r <- te_inv te_tmp ;;
  let '(ret, te_tmp) := r in
  if negb (is_ok ret) then Done (ret, te2) else
  te_add te0 te_tmp te2.

(** ** Conversions between the public and the unified representations *)

Definition tpc_to_tc (tpc : tonal_pitch_class) (tc : tonal_class)
  : outcome (status * tonal_class) :=
  let ret := validate_tpc tpc in
  if negb (is_ok ret) then Done (ret, tc) else
  p <- isub (diatonic_pitch tpc) DP_C ;;
  a <- isub (pitch_alteration tpc) PA_ ;;
  let tc := mk_tc p a in
  assert (is_ok (validate_tc tc)) ;;;
  Done (TONAL_OK, tc).

Definition tc_to_tpc (tc : tonal_class) (tpc : tonal_pitch_class)
  : outcome (status * tonal_pitch_class) :=
  let ret := validate_tc tc in
  if negb (is_ok ret) then Done (ret, tpc) else
  p <- iadd (diatonic_point tc) DP_C ;;
  a <- iadd (alteration tc) PA_ ;;
  let tpc := mk_tpc p a in
  assert (is_ok (validate_tpc tpc)) ;;;
  Done (TONAL_OK, tpc).

Definition tic_to_tc (tic : tonal_interval_class) (tc : tonal_class)
  : outcome (status * tonal_class) :=
  assert (0 =? DI_PRIME) ;;; assert (6 =? DI_SEVENTH) ;;;
  assert (0 =? IA_DIMINISHED) ;;; assert (4 =? IA_AUGMENTED) ;;;
  let ret := validate_tic tic in
  if negb (is_ok ret) then Done (ret, tc) else
  let tic_di := diatonic_interval tic in
  let tic_ia := interval_alteration tic in
  p <- isub tic_di DI_PRIME ;;
  let tc := mk_tc p (tic_to_tc_table tic_di tic_ia) in
  assert (is_ok (validate_tc tc)) ;;;
  Done (TONAL_OK, tc).

(* The inner switch statements of tc_to_tic: the interval alteration named
   by a signed alteration, or None for the default label. *)
Definition perfect_class_ia (tc_a : Z) : option Z :=
  if tc_a =? -1 then Some IA_DIMINISHED
  else if tc_a =? 0 then Some IA_PERFECT
  else if tc_a =? 1 then Some IA_AUGMENTED
  else None.

Definition imperfect_class_ia (tc_a : Z) : option Z :=
  if tc_a =? -2 then Some IA_DIMINISHED
  else if tc_a =? -1 then Some IA_MINOR
  else if tc_a =? 0 then Some IA_MAJOR
  else if tc_a =? 1 then Some IA_AUGMENTED
  else None.

Definition tc_to_tic (tc : tonal_class) (tic : tonal_interval_class)
  : outcome (status * tonal_interval_class) :=
  let ret := validate_tc tc in
  if negb (is_ok ret) then Done (ret, tic) else
  tic_di <- iadd (diatonic_point tc) DI_PRIME ;;
  (* tic->diatonic_interval = tic_di *)
  let tic := mk_tic tic_di (interval_alteration tic) in
  let tc_a := alteration tc in
  r <- (if (tic_di =? DI_PRIME) || (tic_di =? DI_FOURTH)
           || (tic_di =? DI_FIFTH)
        then Done (perfect_class_ia tc_a)
        else if (tic_di =? DI_SECOND) || (tic_di =? DI_THIRD)
                || (tic_di =? DI_SIXTH) || (tic_di =? DI_SEVENTH)
        then Done (imperfect_class_ia tc_a)
        else (* assert(!"Unknown diatonic_interval") *) Abort) ;;
  match r with
  | None => Done (TONAL_FAIL, tic)
  | Some tic_ia =>
      let tic := mk_tic (diatonic_interval tic) tic_ia in
      assert (is_ok (validate_tic tic)) ;;;
      Done (TONAL_OK, tic)
  end.

Definition tp_to_te (tp : tonal_pitch) (te : tonal_element)
  : outcome (status * tonal_element) :=
  let ret := validate_tp tp in
  if negb (is_ok ret) then Done (ret, te) else
  r <- tpc_to_tc (tp_class tp) (te_class te) ;;
  let '(ret, tc) := r in
  let te := mk_te tc (octave te) in
  if negb (is_ok ret) then Done (ret, te) else
  let te := mk_te (te_class te) (tp_octave tp) in
  assert (is_ok (validate_te te)) ;;;
  Done (TONAL_OK, te).

Definition te_to_tp (te : tonal_element) (tp : tonal_pitch)
  : outcome (status * tonal_pitch) :=
  let ret := validate_te te in
  if negb (is_ok ret) then Done (ret, tp) else
  r <- tc_to_tpc (te_class te) (tp_class tp) ;;
  let '(ret, tpc) := r in
  let tp := mk_tp tpc (tp_octave tp) in
  if negb (is_ok ret) then Done (ret, tp) else
  let tp := mk_tp (tp_class tp) (octave te) in
  assert (is_ok (validate_tp tp)) ;;;
  Done (TONAL_OK, tp).

Definition ti_to_te (ti : tonal_interval) (te : tonal_element)
  : outcome (status * tonal_element) :=
  let ret := validate_ti ti in
  if negb (is_ok ret) then Done (ret, te) else
  r <- tic_to_tc (ti_class ti) (te_class te) ;;
  let '(ret, tc) := r in
  let te := mk_te tc (octave te) in
  if negb (is_ok ret) then Done (ret, te) else
  let te := mk_te (te_class te) (ti_octave ti) in
  let ret := validate_te te in
  assert (is_ok ret) ;;;
  te <- (if ID_DOWN =? interval_direction ti
         then (r <- te_inv te ;;
               let '(ret, te) := r in
               assert (is_ok ret) ;;;
               Done te)
         else Done te) ;;
  assert (is_ok (validate_te te)) ;;;
  Done (TONAL_OK, te).

Definition te_to_ti (te : tonal_element) (ti : tonal_interval)
  : outcome (status * tonal_interval) :=
  let ret := validate_te te in
  if negb (is_ok ret) then Done (ret, ti) else
  r <- (if octave te >=? 0
        then
          r <- tc_to_tic (te_class te) (ti_class ti) ;;
          let '(ret, tic) := r in
          let ti := mk_ti tic (ti_octave ti) (interval_direction ti) in
          if negb (is_ok ret) then Done (ret, ti) else
          Done (TONAL_OK, mk_ti (ti_class ti) (octave te) ID_UP)
        else
          let te0 := mk_te (mk_tc (diatonic_point (te_class te))
                                  (alteration (te_class te)))
                           (octave te) in
          r <- te_inv te0 ;;
          let '(ret, te0) := r in
          if negb (is_ok ret) then Done (ret, ti) else
          r <- tc_to_tic (te_class te0) (ti_class ti) ;;
          let '(ret, tic) := r in
          let ti := mk_ti tic (ti_octave ti) (interval_direction ti) in
          if negb (is_ok ret) then Done (ret, ti) else
          Done (TONAL_OK, mk_ti (ti_class ti) (octave te0) ID_DOWN)) ;;
  let '(ret, ti) := r in
  if negb (is_ok ret) then Done (ret, ti) else
  (* NOTE: An interval may never be negative. *)
  assert (0 <=? ti_octave ti) ;;;
  assert (is_ok (validate_ti ti)) ;;;
  Done (TONAL_OK, ti).

(** ** Setters *)

Definition tpc_set (tpc : tonal_pitch_class) (dp pa : Z)
  : outcome (status * tonal_pitch_class) :=
  let ret := validate_diatonic_pitch dp in
  if negb (is_ok ret) then Done (ret, tpc) else
  let ret := validate_pitch_alteration pa in
  if negb (is_ok ret) then Done (ret, tpc) else
  let tpc := mk_tpc dp pa in
  assert (is_ok (validate_tpc tpc)) ;;;
  Done (TONAL_OK, tpc).

Definition tp_set (tp : tonal_pitch) (dp pa oct : Z)
  : outcome (status * tonal_pitch) :=
  r <- tpc_set (tp_class tp) dp pa ;;
  let '(ret, tpc) := r in
  let tp := mk_tp tpc (tp_octave tp) in
  if negb (is_ok ret) then Done (ret, tp) else
  let tp := mk_tp (tp_class tp) oct in
  assert (is_ok (validate_tp tp)) ;;;
  Done (TONAL_OK, tp).

Definition tic_set (tic : tonal_interval_class) (di ia : Z)
  : outcome (status * tonal_interval_class) :=
  let ret := validate_diatonic_interval di in
  if negb (is_ok ret) then Done (ret, tic) else
  let ret := validate_interval_alteration ia in
  if negb (is_ok ret) then Done (ret, tic) else
  if CHAR_x =? tic_to_tc_table di ia then Done (TONAL_FAIL, tic) else
  let tic := mk_tic di ia in
  assert (is_ok (validate_tic tic)) ;;;
  Done (TONAL_OK, tic).

Definition ti_set (ti : tonal_interval) (di ia oct dir : Z)
  : outcome (status * tonal_interval) :=
  r <- tic_set (ti_class ti) di ia ;;
  let '(ret, tic) := r in
  let ti := mk_ti tic (ti_octave ti) (interval_direction ti) in
  if negb (is_ok ret) then Done (ret, ti) else
  let ti := mk_ti (ti_class ti) oct dir in
  Done (validate_ti ti, ti).

(** ** Public operations *)

Section PublicOperations.

(* The content of an automatic struct tonal_element before its first
   assignment is indeterminate. *)
Variable indeterminate : tonal_element.

Definition tp_add (tp : tonal_pitch) (ti : tonal_interval)
    (tp_sum : tonal_pitch) : outcome (status * tonal_pitch) :=
  let te_tp := indeterminate in
  let te_ti := indeterminate in
  let te_sum := indeterminate in
  r <- tp_to_te tp te_tp ;;
  let '(ret, te_tp) := r in
  if negb (is_ok ret) then Done (ret, tp_sum) else
  r <- ti_to_te ti te_ti ;;
  let '(ret, te_ti) := r in
  if negb (is_ok ret) then Done (ret, tp_sum) else
  r <- te_add te_tp te_ti te_sum ;;
  let '(ret, te_sum) := r in
  if negb (is_ok ret) then Done (ret, tp_sum) else
  te_to_tp te_sum tp_sum.

Definition ti_add (ti0 ti1 ti_sum : tonal_interval)
  : outcome (status * tonal_interval) :=
  let te_ti0 := indeterminate in
  let te_ti1 := indeterminate in
  let te_sum := indeterminate in
  r <- ti_to_te ti0 te_ti0 ;;
  let '(ret, te_ti0) := r in
  if negb (is_ok ret) then Done (ret, ti_sum) else
  r <- ti_to_te ti1 te_ti1 ;;
  let '(ret, te_ti1) := r in
  if negb (is_ok ret) then Done (ret, ti_sum) else
  r <- te_add te_ti0 te_ti1 te_sum ;;
  let '(ret, te_sum) := r in
  if negb (is_ok ret) then Done (ret, ti_sum) else
  te_to_ti te_sum ti_sum.

Definition tp_sub (tp0 tp1 : tonal_pitch) (ti_diff : tonal_interval)
  : outcome (status * tonal_interval) :=
  let te_tp0 := indeterminate in
  let te_tp1 := indeterminate in
  let te_diff := indeterminate in
  r <- tp_to_te tp0 te_tp0 ;;
  let '(ret, te_tp0) := r in
  if negb (is_ok ret) then Done (ret, ti_diff) else
  r <- tp_to_te tp1 te_tp1 ;;
  let '(ret, te_tp1) := r in
  if negb (is_ok ret) then Done (ret, ti_diff) else
  r <- te_sub te_tp0 te_tp1 te_diff ;;
  let '(ret, te_diff) := r in
  if negb (is_ok ret) then Done (ret, ti_diff) else
  te_to_ti te_diff ti_diff.

Definition ti_sub (ti0 ti1 ti_diff : tonal_interval)
  : outcome (status * tonal_interval) :=
  let te_ti0 := indeterminate in
  let te_ti1 := indeterminate in
  let te_diff := indeterminate in
  r <- ti_to_te ti0 te_ti0 ;;
  let '(ret, te_ti0) := r in
  if negb (is_ok ret) then Done (ret, ti_diff) else
  r <- ti_to_te ti1 te_ti1 ;;
  let '(ret, te_ti1) := r in
  if negb (is_ok ret) then Done (ret, ti_diff) else
  r <- te_sub te_ti0 te_ti1 te_diff ;;
  let '(ret, te_diff) := r in
  if negb (is_ok ret) then Done (ret, ti_diff) else
  te_to_ti te_diff ti_diff.

(* Translate Tonal Pitch to MIDI Note Number. *)
Definition tp_to_mnn (tp : tonal_pitch) : outcome Z :=
  let te := indeterminate in
  r <- tp_to_te tp te ;;
  let '(ret, te) := r in
  if negb (is_ok ret) then Done INT_MIN else
  te_get_chromatic_value te.

End PublicOperations.

(** ** The projections of the specification

    Section 4.3 of the specification defines the two projections on the
    mathematical integers; [te_get_diatonic_value] and
    [te_get_chromatic_value] compute them in int arithmetic. *)

Definition diatonic_value (te : tonal_element) : Z :=
  7 * octave te + diatonic_point (te_class te).

Definition chromatic_value (te : tonal_element) : Z :=
  12 * octave te + dt_get_mpc_value (diatonic_point (te_class te))
  + alteration (te_class te).

(** ** Predicates used in the statements *)

(** The elements te_inv cannot invert: a double sharp on D, E, A or B would
    need the alteration -3. *)
Definition uninvertible (e : tonal_element) : Prop :=
  alteration (te_class e) = 2 /\
  (diatonic_point (te_class e) = 1 \/ diatonic_point (te_class e) = 2 \/
   diatonic_point (te_class e) = 5 \/ diatonic_point (te_class e) = 6).

(** The octaves for which the int arithmetic of te_inv is defined. *)
Definition invertible_octave (o : Z) : Prop :=
  INT_MIN <= 12 * o /\ 12 * (o + 1) <= INT_MAX.

(** The fields of an interval that a failed conversion cannot have
    touched. *)
Definition same_but_diatonic_interval (ti ti' : tonal_interval) : Prop :=
  interval_alteration (ti_class ti') = interval_alteration (ti_class ti) /\
  ti_octave ti' = ti_octave ti /\
  interval_direction ti' = interval_direction ti.

(** The scratch content te_from_dv_cv may leave behind. *)
Definition retained_or_scratch (te te' : tonal_element) : Prop :=
  te' = te \/ exists p, 0 <= p <= 6 /\ te' = mk_te (mk_tc p 0) 0.

(** What a caller can observe of a call whose output object is discarded
    on failure: the status, and the output of a success. *)
Definition result_of {A : Type} (m : outcome (status * A))
  : outcome (option A) :=
  match m with
  | Done (TONAL_OK, a) => Done (Some a)
  | Done (TONAL_FAIL, _) => Done None
  | Abort => Abort
  | Undefined => Undefined
  end.

(** The classes that tc_to_tic can name: alteration -1..1 on the points of
    the perfect intervals, -2..1 on the others. *)
Definition nameable (tc : tonal_class) : Prop :=
  ((diatonic_point tc = 0 \/ diatonic_point tc = 3 \/ diatonic_point tc = 4)
   /\ -1 <= alteration tc <= 1) \/
  ((diatonic_point tc = 1 \/ diatonic_point tc = 2 \/
    diatonic_point tc = 5 \/ diatonic_point tc = 6)
   /\ -2 <= alteration tc <= 1).

(** ** Fixtures of the unit tests *)

(* Arbitrary previous contents of the output objects. *)
Definition any_te : tonal_element := mk_te (mk_tc 9 9) 9.
Definition any_tp : tonal_pitch := mk_tp (mk_tpc 9 9) 9.
Definition any_ti : tonal_interval := mk_ti (mk_tic 9 9) 9 9.

(* The loops of test_tp_add1 and test_tp_add2: n successive calls of tp_add,
   each on the sum of the previous one, stopping at the first failure. *)
Fixpoint shift (n : nat) (tp : tonal_pitch) (ti : tonal_interval)
  : outcome (status * tonal_pitch) :=
  match n with
  | O => Done (TONAL_OK, tp)
  | S n' =>
      r <- tp_add any_te tp ti any_tp ;;
      let '(ret, tp1) := r in
      if negb (is_ok ret) then Done (ret, tp1) else shift n' tp1 ti
  end.

(** * Basic facts *)

Lemma in_int_iff z : in_int z = true <-> INT_MIN <= z <= INT_MAX.
Proof. unfold in_int. rewrite andb_true_iff, !Z.leb_le. tauto. Qed.

Lemma checked_Done z : INT_MIN <= z <= INT_MAX -> checked z = Done z.
Proof.
  intros H. unfold checked.
  destruct (in_int z) eqn:E; [reflexivity|].
  apply in_int_iff in H. congruence.
Qed.

Lemma checked_inv z r : checked z = Done r -> r = z /\ INT_MIN <= z <= INT_MAX.
Proof.
  unfold checked. destruct (in_int z) eqn:E; [|discriminate].
  intros [= <-]. apply in_int_iff in E. auto.
Qed.

Lemma bind_Done_inv {A B} (m : outcome A) (k : A -> outcome B) b :
  bind m k = Done b -> exists a, m = Done a /\ k a = Done b.
Proof. destruct m; simpl; try discriminate. eauto. Qed.

Lemma assert_Done_inv b u : assert b = Done u -> b = true.
Proof. destruct b; simpl; [reflexivity | discriminate]. Qed.

Lemma is_ok_true s : is_ok s = true <-> s = TONAL_OK.
Proof. destruct s; simpl; split; congruence. Qed.

Lemma validate_tc_iff tc :
  validate_tc tc = TONAL_OK <->
  0 <= diatonic_point tc <= 6 /\ -2 <= alteration tc <= 2.
Proof.
  unfold validate_tc, validate_diatonic_point, validate_alteration.
  destruct (0 <=? diatonic_point tc) eqn:E1,
           (diatonic_point tc <=? 6) eqn:E2,
           (-2 <=? alteration tc) eqn:E3,
           (alteration tc <=? 2) eqn:E4; simpl;
    rewrite ?Z.leb_le, ?Z.leb_gt in *;
    (split; [try discriminate; try lia | intros; try reflexivity; lia]).
Qed.

Lemma validate_te_iff te :
  validate_te te = TONAL_OK <->
  0 <= diatonic_point (te_class te) <= 6 /\ -2 <= alteration (te_class te) <= 2.
Proof. apply validate_tc_iff. Qed.

Lemma point_cases p :
  0 <= p <= 6 -> p = 0 \/ p = 1 \/ p = 2 \/ p = 3 \/ p = 4 \/ p = 5 \/ p = 6.
Proof. lia. Qed.

Lemma alteration_cases a :
  -2 <= a <= 2 -> a = -2 \/ a = -1 \/ a = 0 \/ a = 1 \/ a = 2.
Proof. lia. Qed.

Lemma dt_get_mpc_value_bounds p :
  0 <= p <= 6 -> 0 <= dt_get_mpc_value p <= 11.
Proof.
  intros H. destruct (point_cases p H) as [->|[->|[->|[->|[->|[->| ->]]]]]];
    vm_compute; split; discriminate.
Qed.

(** The projections compute the specification's formulas whenever the int
    arithmetic is defined. *)
Lemma te_get_diatonic_value_inv te d :
  validate_te te = TONAL_OK ->
  te_get_diatonic_value te = Done d ->
  d = diatonic_value te /\ INT_MIN <= 7 * octave te <= INT_MAX
  /\ INT_MIN <= d <= INT_MAX.
Proof.
  intros V. unfold te_get_diatonic_value, diatonic_value. rewrite V. cbn [is_ok negb bind].
  intros H. apply bind_Done_inv in H as (m & Hm & H).
  apply checked_inv in Hm as [-> ?]. apply checked_inv in H as [-> ?]. lia.
Qed.

Lemma tc_get_mpc_value_valid tc :
  validate_tc tc = TONAL_OK ->
  tc_get_mpc_value tc = Done (dt_get_mpc_value (diatonic_point tc) + alteration tc).
Proof.
  intros V. unfold tc_get_mpc_value. rewrite V. cbn [is_ok negb bind].
  apply validate_tc_iff in V as [Hp Ha].
  pose proof (dt_get_mpc_value_bounds _ Hp) as Hm.
  unfold iadd. rewrite checked_Done by (unfold INT_MIN, INT_MAX; lia). cbn [bind].
  replace ((-2 <=? _) && (_ <=? 13)) with true; [reflexivity|].
  symmetry. apply andb_true_iff. rewrite !Z.leb_le. lia.
Qed.

Lemma te_get_chromatic_value_inv te c :
  validate_te te = TONAL_OK ->
  te_get_chromatic_value te = Done c ->
  c = chromatic_value te /\ INT_MIN <= 12 * octave te <= INT_MAX
  /\ INT_MIN <= c <= INT_MAX.
Proof.
  intros V. unfold te_get_chromatic_value, chromatic_value. rewrite V. cbn [is_ok negb bind].
  rewrite (tc_get_mpc_value_valid _ V). cbn [bind].
  intros H. apply bind_Done_inv in H as (m & Hm & H).
  apply checked_inv in Hm as [-> ?]. apply checked_inv in H as [-> ?]. lia.
Qed.

Lemma te_get_diatonic_value_eval te :
  validate_te te = TONAL_OK ->
  INT_MIN <= 7 * octave te <= INT_MAX ->
  INT_MIN <= diatonic_value te <= INT_MAX ->
  te_get_diatonic_value te = Done (diatonic_value te).
Proof.
  intros V H1 H2. unfold te_get_diatonic_value, diatonic_value in *.
  rewrite V. cbn [is_ok negb bind]. unfold imul, iadd.
  rewrite checked_Done by lia. cbn [bind]. now rewrite checked_Done by lia.
Qed.

Lemma te_get_chromatic_value_eval te :
  validate_te te = TONAL_OK ->
  INT_MIN <= 12 * octave te <= INT_MAX ->
  INT_MIN <= chromatic_value te <= INT_MAX ->
  te_get_chromatic_value te = Done (chromatic_value te).
Proof.
  intros V H1 H2. unfold te_get_chromatic_value, chromatic_value in *.
  rewrite V. cbn [is_ok negb bind]. rewrite (tc_get_mpc_value_valid _ V). unfold imul, iadd.
  rewrite checked_Done by lia. cbn [bind]. rewrite checked_Done by lia.
  f_equal. lia.
Qed.

(** ** The modulo arithmetic of te_from_dv_cv *)

Lemma quot_floor_nonpos dv : dv <= 0 -> Z.quot (dv - 6) 7 = dv / 7.
Proof.
  intros H. Z.to_euclidean_division_equations. lia.
Qed.

Lemma quot_floor_pos dv : 0 < dv -> Z.quot dv 7 = dv / 7.
Proof. intros H. apply Z.quot_div_nonneg; lia. Qed.

Lemma te_reduce_inv dv cv o dv' cv' :
  te_reduce dv cv = Done (o, dv', cv') ->
  o = dv / 7 /\ dv' = dv mod 7 /\ cv' = cv - 12 * o /\
  dv = 7 * o + dv' /\ 0 <= dv' <= 6 /\
  INT_MIN <= 7 * o <= INT_MAX /\ INT_MIN <= 12 * o <= INT_MAX /\
  INT_MIN <= cv' <= INT_MAX /\ INT_MIN + 6 <= dv.
Proof.
  unfold te_reduce. intros H.
  apply bind_Done_inv in H as (o0 & Ho & H).
  apply bind_Done_inv in H as (o7 & Ho7 & H).
  apply bind_Done_inv in H as (d & Hd & H).
  apply bind_Done_inv in H as (o12 & Ho12 & H).
  apply bind_Done_inv in H as (c & Hc & H).
  injection H as -> -> ->.
  apply checked_inv in Ho7 as [-> ?].
  apply checked_inv in Hd as [-> ?].
  apply checked_inv in Ho12 as [-> ?].
  apply checked_inv in Hc as [-> ?].
  assert (o = dv / 7 /\ INT_MIN + 6 <= dv) as [E Hlow].
  { destruct (dv <=? 0) eqn:Hs.
    - apply Z.leb_le in Hs.
      apply bind_Done_inv in Ho as (d6 & Hd6 & Ho).
      apply checked_inv in Hd6 as [-> ?].
      apply checked_inv in Ho as [-> ?].
      split; [now apply quot_floor_nonpos | lia].
    - apply Z.leb_gt in Hs.
      apply checked_inv in Ho as [-> ?].
      split; [now apply quot_floor_pos | unfold INT_MIN; lia]. }
  pose proof (Z.div_mod dv 7) as Hdm.
  pose proof (Z.mod_pos_bound dv 7) as Hmb.
  subst o. repeat split; try lia.
Qed.

Lemma te_reduce_eval dv cv :
  INT_MIN + 6 <= dv <= INT_MAX ->
  INT_MIN <= 12 * (dv / 7) <= INT_MAX ->
  INT_MIN <= cv - 12 * (dv / 7) <= INT_MAX ->
  te_reduce dv cv = Done (dv / 7, dv mod 7, cv - 12 * (dv / 7)).
Proof.
  intros Hdv H12 Hcv. unfold te_reduce.
  pose proof (Z.div_mod dv 7) as Hdm.
  pose proof (Z.mod_pos_bound dv 7) as Hmb.
  assert ((if dv <=? 0 then d <- isub dv 6 ;; idiv d 7 else idiv dv 7)
          = Done (dv / 7)) as ->.
  { destruct (dv <=? 0) eqn:Hs.
    - apply Z.leb_le in Hs. unfold isub, idiv.
      rewrite checked_Done by lia. cbn [bind].
      rewrite quot_floor_nonpos by assumption.
      apply checked_Done. unfold INT_MIN, INT_MAX in *. lia.
    - apply Z.leb_gt in Hs. unfold idiv.
      rewrite quot_floor_pos by assumption.
      apply checked_Done. unfold INT_MIN, INT_MAX in *. lia. }
  cbn [bind]. unfold imul, isub.
  rewrite checked_Done by (unfold INT_MIN, INT_MAX in *; lia). cbn [bind].
  rewrite checked_Done by (unfold INT_MIN, INT_MAX in *; lia). cbn [bind].
  rewrite checked_Done by (unfold INT_MIN, INT_MAX in *; lia). cbn [bind].
  rewrite checked_Done by (unfold INT_MIN, INT_MAX in *; lia). cbn [bind].
  do 3 f_equal; lia.
Qed.

(** ** Canonical reconstruction *)

(** What te_from_dv_cv computes when its int arithmetic is defined. *)
Lemma te_from_dv_cv_eval te dv cv :
  INT_MIN + 6 <= dv <= INT_MAX ->
  INT_MIN <= 12 * (dv / 7) <= INT_MAX ->
  INT_MIN <= cv - 12 * (dv / 7) <= INT_MAX ->
  te_from_dv_cv te dv cv =
  let o := dv / 7 in
  let p := dv mod 7 in
  let c := cv - 12 * o in
  let a := c - dt_get_mpc_value p in
  if (c <? -2) || (13 <? c) then Done (TONAL_FAIL, te)
  else if is_ok (validate_alteration a)
       then Done (TONAL_OK, mk_te (mk_tc p a) o)
       else Done (TONAL_FAIL, mk_te (mk_tc p 0) 0).
Proof.
  intros Hdv H12 Hcv. unfold te_from_dv_cv.
  rewrite te_reduce_eval by assumption. cbn [bind]. cbv zeta.
  destruct ((cv - 12 * (dv / 7) <? -2) || (13 <? cv - 12 * (dv / 7))) eqn:Hc;
    [reflexivity|].
  apply orb_false_iff in Hc as [Hc1 Hc2].
  apply Z.ltb_ge in Hc1, Hc2.
  pose proof (Z.mod_pos_bound dv 7 ltac:(lia)) as Hp.
  assert (validate_diatonic_point (dv mod 7) = TONAL_OK) as Vp.
  { unfold validate_diatonic_point.
    replace ((0 <=? dv mod 7) && (dv mod 7 <=? 6)) with true; [reflexivity|].
    symmetry. apply andb_true_iff. rewrite !Z.leb_le. lia. }
  rewrite Vp. cbn [is_ok assert bind].
  assert (validate_te (mk_te (mk_tc (dv mod 7) 0) 0) = TONAL_OK) as V0.
  { apply validate_te_iff. simpl. lia. }
  pose proof (dt_get_mpc_value_bounds (dv mod 7) ltac:(lia)) as Hm.
  rewrite (te_get_chromatic_value_eval _ V0);
    unfold chromatic_value; cbn [octave te_class diatonic_point alteration];
    try (unfold INT_MIN, INT_MAX; lia).
  cbn [bind]. unfold isub.
  rewrite checked_Done by (unfold INT_MIN, INT_MAX in *; lia). cbn [bind].
  replace (cv - 12 * (dv / 7) - (12 * 0 + dt_get_mpc_value (dv mod 7) + 0))
    with (cv - 12 * (dv / 7) - dt_get_mpc_value (dv mod 7)) by lia.
  destruct (validate_alteration _) eqn:Va; cbn [is_ok negb]; [|reflexivity].
  assert (validate_te
            (mk_te (mk_tc (dv mod 7)
                      (cv - 12 * (dv / 7) - dt_get_mpc_value (dv mod 7)))
               (dv / 7)) = TONAL_OK) as V1.
  { unfold validate_te, validate_tc.
    cbn [te_class diatonic_point alteration]. rewrite Vp, Va. reflexivity. }
  rewrite V1. reflexivity.
Qed.

Lemma te_from_dv_cv_defined te dv cv r :
  dv <= INT_MAX ->
  te_from_dv_cv te dv cv = Done r ->
  INT_MIN + 6 <= dv <= INT_MAX /\
  INT_MIN <= 12 * (dv / 7) <= INT_MAX /\
  INT_MIN <= cv - 12 * (dv / 7) <= INT_MAX.
Proof.
  intros Hdv H. unfold te_from_dv_cv in H.
  apply bind_Done_inv in H as ([[o d] c] & Hr & _).
  apply te_reduce_inv in Hr as (-> & _ & -> & _ & _ & _ & ? & ? & ?).
  lia.
Qed.

(** A successful reconstruction is valid and projects back onto (dv, cv). *)
Lemma te_from_dv_cv_sound te dv cv te' :
  dv <= INT_MAX ->
  INT_MIN <= cv <= INT_MAX ->
  te_from_dv_cv te dv cv = Done (TONAL_OK, te') ->
  validate_te te' = TONAL_OK /\
  diatonic_value te' = dv /\ chromatic_value te' = cv /\
  te_get_diatonic_value te' = Done dv /\
  te_get_chromatic_value te' = Done cv.
Proof.
  intros Hdv Hcv H.
  destruct (te_from_dv_cv_defined _ _ _ _ Hdv H) as (Hd & H12 & Hc).
  rewrite te_from_dv_cv_eval in H by assumption. cbv zeta in H.
  destruct ((_ <? -2) || _) eqn:Hrange; [discriminate|].
  destruct (validate_alteration _) eqn:Va; cbn [is_ok] in H; [|discriminate].
  injection H as <-.
  pose proof (Z.div_mod dv 7 ltac:(lia)) as Hdm.
  pose proof (Z.mod_pos_bound dv 7 ltac:(lia)) as Hmb.
  assert (validate_te
            (mk_te (mk_tc (dv mod 7)
                      (cv - 12 * (dv / 7) - dt_get_mpc_value (dv mod 7)))
               (dv / 7)) = TONAL_OK) as V.
  { apply validate_te_iff. cbn [te_class diatonic_point alteration].
    unfold validate_alteration in Va.
    destruct ((-2 <=? _) && _) eqn:E; [|discriminate].
    apply andb_true_iff in E. rewrite !Z.leb_le in E. lia. }
  assert (diatonic_value
            (mk_te (mk_tc (dv mod 7)
                      (cv - 12 * (dv / 7) - dt_get_mpc_value (dv mod 7)))
               (dv / 7)) = dv) as Ed.
  { unfold diatonic_value. cbn [octave te_class diatonic_point]. lia. }
  assert (chromatic_value
            (mk_te (mk_tc (dv mod 7)
                      (cv - 12 * (dv / 7) - dt_get_mpc_value (dv mod 7)))
               (dv / 7)) = cv) as Ec.
  { unfold chromatic_value. cbn [octave te_class diatonic_point alteration].
    lia. }
  repeat split; try assumption.
  - pose proof (te_get_diatonic_value_eval _ V) as G.
    rewrite Ed in G. apply G; cbn [octave]; lia.
  - pose proof (te_get_chromatic_value_eval _ V) as G.
    rewrite Ec in G. apply G; cbn [octave]; lia.
Qed.

(** A successful te_add has computed the four projections and their sums,
    and reconstructed its result from the sums. *)
Lemma te_add_inv (te0 te1 te2 r : tonal_element) :
  validate_te te0 = TONAL_OK ->
  validate_te te1 = TONAL_OK ->
  te_add te0 te1 te2 = Done (TONAL_OK, r) ->
  exists d0 d1 c0 c1,
    te_get_diatonic_value te0 = Done d0 /\
    te_get_diatonic_value te1 = Done d1 /\
    te_get_chromatic_value te0 = Done c0 /\
    te_get_chromatic_value te1 = Done c1 /\
    INT_MIN <= d0 + d1 <= INT_MAX /\
    INT_MIN <= c0 + c1 <= INT_MAX /\
    te_from_dv_cv te2 (d0 + d1) (c0 + c1) = Done (TONAL_OK, r).
Proof.
  intros V0 V1 H. unfold te_add in H. rewrite V0, V1 in H.
  cbn [is_ok negb] in H.
  apply bind_Done_inv in H as (d0 & Hd0 & H).
  apply bind_Done_inv in H as (d1 & Hd1 & H).
  apply bind_Done_inv in H as (dv & Hdv & H).
  apply bind_Done_inv in H as (c0 & Hc0 & H).
  apply bind_Done_inv in H as (c1 & Hc1 & H).
  apply bind_Done_inv in H as (cv & Hcv & H).
  apply checked_inv in Hdv as [-> Hdv].
  apply checked_inv in Hcv as [-> Hcv].
  exists d0, d1, c0, c1. auto 10.
Qed.

(** * The claims *)

(** ** Addition *)

(** C1. For valid operands, a successful te_add yields a valid element (so
    its alteration lies in {-2..2}) whose diatonic and chromatic values,
    as computed by te_get_diatonic_value and te_get_chromatic_value and as
    given by the formulas 7*octave + point and 12*octave + mpc + alteration,
    are exactly the sums of the operands' values. *)
Theorem te_add_sound (te0 te1 te2 te2' : tonal_element) :
  validate_te te0 = TONAL_OK ->
  validate_te te1 = TONAL_OK ->
  te_add te0 te1 te2 = Done (TONAL_OK, te2') ->
  validate_te te2' = TONAL_OK /\
  -2 <= alteration (te_class te2') <= 2 /\
  (exists d0 d1 c0 c1,
     te_get_diatonic_value te0 = Done d0 /\
     te_get_diatonic_value te1 = Done d1 /\
     te_get_chromatic_value te0 = Done c0 /\
     te_get_chromatic_value te1 = Done c1 /\
     te_get_diatonic_value te2' = Done (d0 + d1) /\
     te_get_chromatic_value te2' = Done (c0 + c1)) /\
  diatonic_value te2' = diatonic_value te0 + diatonic_value te1 /\
  chromatic_value te2' = chromatic_value te0 + chromatic_value te1.
Proof.
  intros V0 V1 H.
  destruct (te_add_inv _ _ _ _ V0 V1 H)
    as (d0 & d1 & c0 & c1 & Hd0 & Hd1 & Hc0 & Hc1 & Hdv & Hcv & Hr).
  apply te_from_dv_cv_sound in Hr as (V2 & Ed & Ec & Gd & Gc); try lia.
  destruct (te_get_diatonic_value_inv _ _ V0 Hd0) as (E0 & _).
  destruct (te_get_diatonic_value_inv _ _ V1 Hd1) as (E1 & _).
  destruct (te_get_chromatic_value_inv _ _ V0 Hc0) as (F0 & _).
  destruct (te_get_chromatic_value_inv _ _ V1 Hc1) as (F1 & _).
  split; [assumption|]. split; [apply validate_te_iff in V2; tauto|].
  split; [exists d0, d1, c0, c1; tauto|]. split; congruence.
Qed.

Lemma te_add_sound_witness :
  validate_te (mk_te (mk_tc 4 0) 0) = TONAL_OK /\
  validate_te (mk_te (mk_tc 3 0) 0) = TONAL_OK /\
  te_add (mk_te (mk_tc 4 0) 0) (mk_te (mk_tc 3 0) 0) TONAL_ELEMENT_ZERO
  = Done (TONAL_OK, mk_te (mk_tc 0 0) 1) /\
  chromatic_value (mk_te (mk_tc 0 0) 1)
  = chromatic_value (mk_te (mk_tc 4 0) 0)
    + chromatic_value (mk_te (mk_tc 3 0) 0).
Proof.
  split; [reflexivity|]. split; [reflexivity|]. split; [reflexivity|].
  apply (te_add_sound (mk_te (mk_tc 4 0) 0) (mk_te (mk_tc 3 0) 0)
           TONAL_ELEMENT_ZERO (mk_te (mk_tc 0 0) 1));
    reflexivity.
Defined.

(** ** Evaluating te_add and te_inv on valid operands *)

Ltac te_eq :=
  match goal with
  | |- Done (?s, mk_te (mk_tc ?p ?a) ?o) = Done (?s, mk_te (mk_tc ?p' ?a') ?o') =>
      replace p with p' by lia; replace a with a' by lia;
      replace o with o' by lia; reflexivity
  end.

Lemma div7 o p : 0 <= p <= 6 -> (7 * o + p) / 7 = o /\ (7 * o + p) mod 7 = p.
Proof. intros H. Z.to_euclidean_division_equations. lia. Qed.

Lemma validate_alteration_ok a :
  -2 <= a <= 2 -> validate_alteration a = TONAL_OK.
Proof.
  intros H. unfold validate_alteration.
  replace ((-2 <=? a) && (a <=? 2)) with true; [reflexivity|].
  symmetry. apply andb_true_iff. rewrite !Z.leb_le. lia.
Qed.

Lemma validate_alteration_fail a :
  a < -2 \/ 2 < a -> validate_alteration a = TONAL_FAIL.
Proof.
  intros H. unfold validate_alteration.
  replace ((-2 <=? a) && (a <=? 2)) with false; [reflexivity|].
  symmetry. apply andb_false_iff. rewrite !Z.leb_gt. lia.
Qed.

Lemma range_check_false c : -2 <= c <= 13 -> (c <? -2) || (13 <? c) = false.
Proof. intros H. apply orb_false_iff. rewrite !Z.ltb_ge. lia. Qed.

Lemma range_check_true c : c < -2 \/ 13 < c -> (c <? -2) || (13 <? c) = true.
Proof. intros H. apply orb_true_iff. rewrite !Z.ltb_lt. lia. Qed.

Lemma mpc_at_0 : dt_get_mpc_value 0 = 0. Proof. reflexivity. Qed.
Lemma mpc_at_1 : dt_get_mpc_value 1 = 2. Proof. reflexivity. Qed.
Lemma mpc_at_2 : dt_get_mpc_value 2 = 4. Proof. reflexivity. Qed.
Lemma mpc_at_3 : dt_get_mpc_value 3 = 5. Proof. reflexivity. Qed.
Lemma mpc_at_4 : dt_get_mpc_value 4 = 7. Proof. reflexivity. Qed.
Lemma mpc_at_5 : dt_get_mpc_value 5 = 9. Proof. reflexivity. Qed.
Lemma mpc_at_6 : dt_get_mpc_value 6 = 11. Proof. reflexivity. Qed.

Create Rewrite HintDb mpc.
#[local] Hint Rewrite mpc_at_0 mpc_at_1 mpc_at_2 mpc_at_3 mpc_at_4 mpc_at_5
  mpc_at_6 : mpc.

(** The projections of a valid element are defined as soon as the chromatic
    one is. *)
Lemma projections_in_int te :
  validate_te te = TONAL_OK ->
  INT_MIN <= 12 * octave te <= INT_MAX ->
  INT_MIN <= chromatic_value te <= INT_MAX ->
  INT_MIN <= 7 * octave te <= INT_MAX /\
  INT_MIN <= diatonic_value te <= INT_MAX.
Proof.
  intros V H12 Hc. apply validate_te_iff in V as [Hp Ha].
  pose proof (dt_get_mpc_value_bounds _ Hp) as Hm.
  unfold chromatic_value, diatonic_value, INT_MIN, INT_MAX in *. lia.
Qed.

Lemma te_add_unfold te0 te1 te2 :
  validate_te te0 = TONAL_OK ->
  validate_te te1 = TONAL_OK ->
  INT_MIN <= 12 * octave te0 <= INT_MAX ->
  INT_MIN <= chromatic_value te0 <= INT_MAX ->
  INT_MIN <= 12 * octave te1 <= INT_MAX ->
  INT_MIN <= chromatic_value te1 <= INT_MAX ->
  INT_MIN <= diatonic_value te0 + diatonic_value te1 <= INT_MAX ->
  INT_MIN <= chromatic_value te0 + chromatic_value te1 <= INT_MAX ->
  te_add te0 te1 te2 =
  te_from_dv_cv te2 (diatonic_value te0 + diatonic_value te1)
                    (chromatic_value te0 + chromatic_value te1).
Proof.
  intros V0 V1 A0 C0 A1 C1 Hd Hc.
  destruct (projections_in_int _ V0 A0 C0) as [B0 D0].
  destruct (projections_in_int _ V1 A1 C1) as [B1 D1].
  unfold te_add. rewrite V0, V1. cbn [is_ok negb].
  rewrite !te_get_diatonic_value_eval, !te_get_chromatic_value_eval
    by assumption.
  cbn [bind]. unfold iadd.
  rewrite checked_Done by assumption. cbn [bind].
  rewrite checked_Done by assumption. reflexivity.
Qed.

Lemma te_inv_unfold te :
  validate_te te = TONAL_OK ->
  INT_MIN <= 12 * octave te <= INT_MAX ->
  INT_MIN < chromatic_value te <= INT_MAX ->
  te_inv te = te_from_dv_cv te (- diatonic_value te) (- chromatic_value te).
Proof.
  intros V A C.
  destruct (projections_in_int _ V A ltac:(lia)) as [B D].
  assert (INT_MIN < diatonic_value te).
  { apply validate_te_iff in V as [Hp Ha].
    pose proof (dt_get_mpc_value_bounds _ Hp) as Hm.
    unfold chromatic_value, diatonic_value, INT_MIN, INT_MAX in *. lia. }
  unfold te_inv. rewrite V. cbn [is_ok negb].
  rewrite te_get_diatonic_value_eval, te_get_chromatic_value_eval
    by (assumption || lia).
  cbn [bind]. unfold ineg.
  rewrite checked_Done by (unfold INT_MIN, INT_MAX in *; lia). cbn [bind].
  rewrite checked_Done by (unfold INT_MIN, INT_MAX in *; lia). reflexivity.
Qed.

(** ** Identity *)

(** Evaluation of te_add at ZERO on either side, for a valid element whose
    chromatic value is representable. *)
Lemma te_add_zero (e out : tonal_element) (c : Z) :
  validate_te e = TONAL_OK ->
  te_get_chromatic_value e = Done c ->
  te_add e TONAL_ELEMENT_ZERO out = Done (TONAL_OK, e) /\
  te_add TONAL_ELEMENT_ZERO e out = Done (TONAL_OK, e).
Proof.
  intros V Hc.
  destruct (te_get_chromatic_value_inv _ _ V Hc) as (-> & A & C).
  destruct (projections_in_int _ V A C) as [B D].
  pose proof V as V'. apply validate_te_iff in V' as [Hp Ha].
  pose proof (dt_get_mpc_value_bounds _ Hp) as Hm.
  assert (validate_te TONAL_ELEMENT_ZERO = TONAL_OK) as VZ by reflexivity.
  assert (diatonic_value TONAL_ELEMENT_ZERO = 0) as DZ by reflexivity.
  assert (chromatic_value TONAL_ELEMENT_ZERO = 0) as CZ by reflexivity.
  assert (octave TONAL_ELEMENT_ZERO = 0) as OZ by reflexivity.
  destruct e as [[p a] o].
  unfold chromatic_value, diatonic_value in *.
  cbn [octave te_class diatonic_point alteration] in *.
  destruct (div7 o p Hp) as [Eq Em].
  split.
  - rewrite te_add_unfold; try assumption;
      unfold chromatic_value, diatonic_value;
      cbn [octave te_class diatonic_point alteration];
      rewrite ?DZ, ?CZ, ?OZ, ?Z.add_0_r; try lia;
      try (unfold INT_MIN, INT_MAX; lia).
    rewrite te_from_dv_cv_eval; rewrite ?Eq, ?Em;
      try (unfold INT_MIN, INT_MAX in *; lia).
    cbv zeta. rewrite range_check_false by lia.
    rewrite validate_alteration_ok by lia. cbn [is_ok]. te_eq.
  - rewrite te_add_unfold; try assumption;
      unfold chromatic_value, diatonic_value;
      cbn [octave te_class diatonic_point alteration];
      rewrite ?DZ, ?CZ, ?OZ, ?Z.add_0_l; try lia;
      try (unfold INT_MIN, INT_MAX; lia).
    rewrite te_from_dv_cv_eval; rewrite ?Eq, ?Em;
      try (unfold INT_MIN, INT_MAX in *; lia).
    cbv zeta. rewrite range_check_false by lia.
    rewrite validate_alteration_ok by lia. cbn [is_ok]. te_eq.
Qed.

(** ** Inversion *)

Lemma neg_div7 o p :
  0 < p <= 6 ->
  (- (7 * o + p)) / 7 = - o - 1 /\ (- (7 * o + p)) mod 7 = 7 - p.
Proof. intros H. Z.to_euclidean_division_equations. lia. Qed.

Lemma neg_div7_0 o :
  (- (7 * o + 0)) / 7 = - o /\ (- (7 * o + 0)) mod 7 = 0.
Proof. Z.to_euclidean_division_equations. lia. Qed.

Ltac norm7 :=
  repeat match goal with
         | |- context [7 - ?k] =>
             let v := eval compute in (7 - k) in change (7 - k) with v
         end.

Ltac neg_div7_facts o :=
  let Eq := fresh "Eq" in
  let Em := fresh "Em" in
  match goal with
  | |- context [- (7 * o + 0)] => destruct (neg_div7_0 o) as [Eq Em]
  | |- context [- (7 * o + ?k)] =>
      destruct (neg_div7 o k ltac:(lia)) as [Eq Em]
  end;
  rewrite ?Eq, ?Em.

(** Closed form of te_inv on a valid element of invertible octave. *)
Lemma te_inv_eval (e : tonal_element) :
  validate_te e = TONAL_OK ->
  invertible_octave (octave e) ->
  let p := diatonic_point (te_class e) in
  let a := alteration (te_class e) in
  let o := octave e in
  te_inv e =
  if p =? 0 then Done (TONAL_OK, mk_te (mk_tc 0 (- a)) (- o))
  else if (p =? 3) || (p =? 4)
       then Done (TONAL_OK, mk_te (mk_tc (7 - p) (- a)) (- o - 1))
       else if a =? 2
            then Done (TONAL_FAIL, mk_te (mk_tc (7 - p) 0) 0)
            else Done (TONAL_OK, mk_te (mk_tc (7 - p) (- 1 - a)) (- o - 1)).
Proof.
  intros V [Hlo Hhi]. pose proof V as V'.
  apply validate_te_iff in V' as [Hp Ha].
  destruct e as [[p a] o]. cbn [octave te_class diatonic_point alteration] in *.
  cbv zeta.
  rewrite te_inv_unfold; try assumption;
    unfold chromatic_value, diatonic_value;
    cbn [octave te_class diatonic_point alteration];
    try (pose proof (dt_get_mpc_value_bounds _ Hp);
         unfold INT_MIN, INT_MAX in *; lia).
  destruct (point_cases p Hp) as [->|[->|[->|[->|[->|[->| ->]]]]]];
    autorewrite with mpc;
    (rewrite te_from_dv_cv_eval;
     [ | neg_div7_facts o; unfold INT_MIN, INT_MAX in *; lia .. ]);
    neg_div7_facts o; cbv zeta;
    rewrite range_check_false by (autorewrite with mpc; lia);
    cbn [Z.eqb Pos.eqb orb]; norm7; autorewrite with mpc.
  all: try (rewrite validate_alteration_ok by lia; cbn [is_ok]; te_eq).
  all: destruct (a =? 2) eqn:Ea;
    [ apply Z.eqb_eq in Ea; subst a;
      rewrite validate_alteration_fail by lia; reflexivity
    | apply Z.eqb_neq in Ea;
      rewrite validate_alteration_ok by lia; cbn [is_ok]; te_eq ].
Qed.

Lemma te_from_dv_cv_zero out :
  te_from_dv_cv out 0 0 = Done (TONAL_OK, TONAL_ELEMENT_ZERO).
Proof. reflexivity. Qed.

(** Whenever te_inv succeeds, adding the result to the original gives the
    zero element. *)
Lemma te_inv_cancels (e i out : tonal_element) :
  validate_te e = TONAL_OK ->
  te_inv e = Done (TONAL_OK, i) ->
  te_add e i out = Done (TONAL_OK, TONAL_ELEMENT_ZERO).
Proof.
  intros V H. unfold te_inv in H. rewrite V in H. cbn [is_ok negb] in H.
  apply bind_Done_inv in H as (d & Hd & H).
  apply bind_Done_inv in H as (dv & Hdv & H).
  apply bind_Done_inv in H as (c & Hc & H).
  apply bind_Done_inv in H as (cv & Hcv & H).
  apply checked_inv in Hdv as [-> Hdv].
  apply checked_inv in Hcv as [-> Hcv].
  apply te_from_dv_cv_sound in H as (Vi & _ & _ & Gd & Gc); try lia.
  unfold te_add. rewrite V, Vi. cbn [is_ok negb].
  rewrite Hd, Gd, Hc, Gc. cbn [bind]. unfold iadd.
  rewrite !Z.add_opp_diag_r.
  change (checked 0) with (Done 0). cbn [bind].
  apply te_from_dv_cv_zero.
Qed.

(** C3 (as amended). Every valid element of invertible octave, other than
    a double sharp on diatonic point 1, 2, 5 or 6, is inverted successfully
    by te_inv, and te_add of the element and its inverse succeeds with the
    zero element {point 0, alteration 0, octave 0}. *)
Theorem te_inv_add_zero (e out : tonal_element) :
  validate_te e = TONAL_OK ->
  invertible_octave (octave e) ->
  ~ uninvertible e ->
  exists i,
    te_inv e = Done (TONAL_OK, i) /\
    te_add e i out = Done (TONAL_OK, TONAL_ELEMENT_ZERO).
Proof.
  intros V Ho Hn.
  assert (exists i, te_inv e = Done (TONAL_OK, i)) as [i Hi].
  { rewrite (te_inv_eval e V Ho). cbv zeta.
    pose proof V as V'. apply validate_te_iff in V' as [Hp Ha].
    destruct (diatonic_point (te_class e) =? 0) eqn:E0; [eauto|].
    destruct ((diatonic_point (te_class e) =? 3)
              || (diatonic_point (te_class e) =? 4)) eqn:E34; [eauto|].
    destruct (alteration (te_class e) =? 2) eqn:E2; [|eauto].
    exfalso. apply Hn. unfold uninvertible.
    apply Z.eqb_eq in E2. apply Z.eqb_neq in E0.
    apply orb_false_iff in E34 as [E3 E4].
    apply Z.eqb_neq in E3, E4. lia. }
  exists i. split; [assumption|]. now apply te_inv_cancels.
Qed.

Lemma te_inv_add_zero_witness :
  exists i,
    te_inv (mk_te (mk_tc 6 (-1)) 5) = Done (TONAL_OK, i) /\
    te_add (mk_te (mk_tc 6 (-1)) 5) i (mk_te (mk_tc 3 1) 9)
    = Done (TONAL_OK, TONAL_ELEMENT_ZERO).
Proof.
  apply (te_inv_add_zero (mk_te (mk_tc 6 (-1)) 5) (mk_te (mk_tc 3 1) 9)).
  - reflexivity.
  - unfold invertible_octave, INT_MIN, INT_MAX. simpl. lia.
  - unfold uninvertible. simpl. intros [H _]. discriminate H.
Defined.

(** C3 (as stated) fails: D double sharp is a valid element that te_inv
    does not invert; the call reports failure and leaves the scratch
    content {point 6, alteration 0, octave 0} in the element. *)
Lemma te_inv_fails_on_D_double_sharp :
  validate_te (mk_te (mk_tc 1 2) 0) = TONAL_OK /\
  te_inv (mk_te (mk_tc 1 2) 0) = Done (TONAL_FAIL, mk_te (mk_tc 6 0) 0).
Proof. split; reflexivity. Qed.

(** The elements excluded by [uninvertible] are exactly those on which
    te_inv reports failure. *)
Lemma te_inv_fails_iff (e : tonal_element) :
  validate_te e = TONAL_OK ->
  invertible_octave (octave e) ->
  (exists e', te_inv e = Done (TONAL_FAIL, e')) <-> uninvertible e.
Proof.
  intros V Ho. rewrite (te_inv_eval e V Ho). cbv zeta.
  pose proof V as V'. apply validate_te_iff in V' as [Hp Ha].
  unfold uninvertible.
  destruct (diatonic_point (te_class e) =? 0) eqn:E0.
  { apply Z.eqb_eq in E0. split; [intros [? [=]] | lia]. }
  destruct ((diatonic_point (te_class e) =? 3)
            || (diatonic_point (te_class e) =? 4)) eqn:E34.
  { apply orb_true_iff in E34. rewrite !Z.eqb_eq in E34.
    split; [intros [? [=]] | lia]. }
  apply Z.eqb_neq in E0. apply orb_false_iff in E34 as [E3 E4].
  apply Z.eqb_neq in E3, E4.
  destruct (alteration (te_class e) =? 2) eqn:E2.
  - apply Z.eqb_eq in E2. split; [lia | eauto].
  - apply Z.eqb_neq in E2. split; [intros [? [=]] | lia].
Qed.

(** ** Identity (continued) *)

(** Octaves up to 178956969 in absolute value keep the chromatic value of
    a valid element within int. *)
Lemma te_get_chromatic_value_defined (e : tonal_element) :
  validate_te e = TONAL_OK ->
  -178956969 <= octave e <= 178956969 ->
  te_get_chromatic_value e = Done (chromatic_value e).
Proof.
  intros V Ho. pose proof V as V'. apply validate_te_iff in V' as [Hp Ha].
  pose proof (dt_get_mpc_value_bounds _ Hp) as Hm.
  apply te_get_chromatic_value_eval; [assumption| |];
    unfold chromatic_value, INT_MIN, INT_MAX; lia.
Qed.

(** C8 (as amended). For every valid element whose chromatic value is
    representable as an int (te_get_chromatic_value is defined on it),
    te_add with ZERO on either side succeeds and returns the element. *)
Theorem te_add_identity (e out : tonal_element) (c : Z) :
  validate_te e = TONAL_OK ->
  te_get_chromatic_value e = Done c ->
  te_add e TONAL_ELEMENT_ZERO out = Done (TONAL_OK, e) /\
  te_add TONAL_ELEMENT_ZERO e out = Done (TONAL_OK, e).
Proof. apply te_add_zero. Qed.

Lemma te_add_identity_witness :
  te_add (mk_te (mk_tc 6 2) (-1)) TONAL_ELEMENT_ZERO (mk_te (mk_tc 3 1) 9)
  = Done (TONAL_OK, mk_te (mk_tc 6 2) (-1)) /\
  te_add TONAL_ELEMENT_ZERO (mk_te (mk_tc 6 2) (-1)) (mk_te (mk_tc 3 1) 9)
  = Done (TONAL_OK, mk_te (mk_tc 6 2) (-1)).
Proof.
  apply (te_add_identity (mk_te (mk_tc 6 2) (-1)) (mk_te (mk_tc 3 1) 9) 1);
    reflexivity.
Defined.

(** C8 (as stated) fails at the top of the int range: the element
    {point 0, alteration 0, octave INT_MAX} is valid, and 7 * octave
    overflows in te_get_diatonic_value. *)
Lemma te_add_identity_overflows :
  validate_te (mk_te (mk_tc 0 0) INT_MAX) = TONAL_OK /\
  te_add (mk_te (mk_tc 0 0) INT_MAX) TONAL_ELEMENT_ZERO TONAL_ELEMENT_ZERO
  = Undefined /\
  te_add TONAL_ELEMENT_ZERO (mk_te (mk_tc 0 0) INT_MAX) TONAL_ELEMENT_ZERO
  = Undefined.
Proof. repeat split; reflexivity. Qed.

(** ** Subtraction *)

(** What te_sub computes: it inverts its second operand and adds the first
    one to it, so a successful call returns te0 - te1. *)
Lemma te_sub_value (te0 te1 te2 r : tonal_element) :
  validate_te te0 = TONAL_OK ->
  validate_te te1 = TONAL_OK ->
  te_sub te0 te1 te2 = Done (TONAL_OK, r) ->
  (exists i, te_inv te1 = Done (TONAL_OK, i) /\
             te_add te0 i te2 = Done (TONAL_OK, r)) /\
  diatonic_value r = diatonic_value te0 - diatonic_value te1 /\
  chromatic_value r = chromatic_value te0 - chromatic_value te1.
Proof.
  intros V0 V1 H. unfold te_sub in H. rewrite V0, V1 in H.
  cbn [is_ok negb] in H.
  apply bind_Done_inv in H as ([s i] & Hi & H).
  destruct s; cbn [is_ok negb] in H; [|discriminate].
  assert (validate_te i = TONAL_OK /\
          diatonic_value i = - diatonic_value te1 /\
          chromatic_value i = - chromatic_value te1) as (Vi & Di & Ci).
  { pose proof Hi as Hi'. unfold te_inv in Hi'. rewrite V1 in Hi'.
    cbn [is_ok negb] in Hi'.
    apply bind_Done_inv in Hi' as (d & Hd & Hi').
    apply bind_Done_inv in Hi' as (dv & Hdv & Hi').
    apply bind_Done_inv in Hi' as (c & Hc & Hi').
    apply bind_Done_inv in Hi' as (cv & Hcv & Hi').
    apply checked_inv in Hdv as [-> Hdv].
    apply checked_inv in Hcv as [-> Hcv].
    apply te_from_dv_cv_sound in Hi' as (Vi & Ed & Ec & _); try lia.
    destruct (te_get_diatonic_value_inv _ _ V1 Hd) as (-> & _).
    destruct (te_get_chromatic_value_inv _ _ V1 Hc) as (-> & _).
    auto. }
  split; [exists i; auto|].
  destruct (te_add_inv _ _ _ _ V0 Vi H)
    as (d0 & d1 & c0 & c1 & Hd0 & Hd1 & Hc0 & Hc1 & Hdv & Hcv & Hr).
  apply te_from_dv_cv_sound in Hr as (_ & Ed & Ec & _); try lia.
  destruct (te_get_diatonic_value_inv _ _ V0 Hd0) as (E0 & _).
  destruct (te_get_diatonic_value_inv _ _ Vi Hd1) as (E1 & _).
  destruct (te_get_chromatic_value_inv _ _ V0 Hc0) as (F0 & _).
  destruct (te_get_chromatic_value_inv _ _ Vi Hc1) as (F1 & _).
  lia.
Qed.

(** C2. The header documents te_sub(te0, te1, te2) as te2 := te1 - te0,
    that is te1 + te_inv(te0).  With te0 = G0 and te1 = C1 the documented
    result is the perfect fourth {point 3, alteration 0, octave 0}; te_sub
    returns te0 + te_inv(te1) = {point 4, alteration 0, octave -1}. *)
Theorem te_sub_swaps_operands (out : tonal_element) :
  let te0 := mk_te (mk_tc 4 0) 0 in
  let te1 := mk_te (mk_tc 0 0) 1 in
  te_sub te0 te1 out = Done (TONAL_OK, mk_te (mk_tc 4 0) (-1)) /\
  (exists i0, te_inv te0 = Done (TONAL_OK, i0) /\
              te_add te1 i0 out = Done (TONAL_OK, mk_te (mk_tc 3 0) 0)) /\
  (exists i1, te_inv te1 = Done (TONAL_OK, i1) /\
              te_add te0 i1 out = Done (TONAL_OK, mk_te (mk_tc 4 0) (-1))).
Proof.
  cbv zeta. split; [reflexivity|]. split.
  - exists (mk_te (mk_tc 3 0) (-1)). split; reflexivity.
  - exists (mk_te (mk_tc 0 0) (-1)). split; reflexivity.
Qed.

(** ** Element to Pitch with a negative octave *)

(** C6. te_to_tp has no entry check on the octave: for a valid element of
    negative octave the conversion of the class succeeds, the octave is
    copied, and the closing assertion on validate_tp fails.  The call
    aborts instead of returning TONAL_FAIL. *)
Theorem te_to_tp_negative_octave_aborts (e : tonal_element) (tp : tonal_pitch) :
  validate_te e = TONAL_OK ->
  octave e < 0 ->
  te_to_tp e tp = Abort.
Proof.
  intros V Ho. unfold te_to_tp. rewrite V. cbn [is_ok negb].
  pose proof V as V'. apply validate_te_iff in V' as [Hp Ha].
  unfold tc_to_tpc. unfold validate_te in V. rewrite V. cbn [is_ok negb].
  unfold iadd, DP_C, PA_.
  rewrite checked_Done by (unfold INT_MIN, INT_MAX; lia). cbn [bind].
  rewrite checked_Done by (unfold INT_MIN, INT_MAX; lia). cbn [bind].
  assert (validate_tpc
            (mk_tpc (diatonic_point (te_class e) + 0)
                    (alteration (te_class e) + 2)) = TONAL_OK) as Vp.
  { unfold validate_tpc, validate_diatonic_pitch, validate_pitch_alteration.
    cbn [diatonic_pitch pitch_alteration].
    unfold DP_C, DP_B, PA_bb, PA_ss.
    replace ((0 <=? _ + 0) && (_ + 0 <=? 6)) with true
      by (symmetry; apply andb_true_iff; rewrite !Z.leb_le; lia).
    cbn [is_ok negb].
    replace ((0 <=? _ + 2) && (_ + 2 <=? 4)) with true
      by (symmetry; apply andb_true_iff; rewrite !Z.leb_le; lia).
    reflexivity. }
  rewrite Vp. cbn [is_ok assert bind negb tp_class].
  unfold validate_tp. cbn [tp_octave].
  replace (octave e <? 0) with true by (symmetry; apply Z.ltb_lt; lia).
  reflexivity.
Qed.

Lemma te_to_tp_negative_octave_aborts_witness :
  te_to_tp (mk_te (mk_tc 3 0) (-1)) (mk_tp (mk_tpc DP_C PA_) 0) = Abort.
Proof.
  apply (te_to_tp_negative_octave_aborts (mk_te (mk_tc 3 0) (-1))).
  - reflexivity.
  - simpl. lia.
Defined.

(** The abort reaches the public interface: C0 shifted down a perfect
    fifth is F-1. *)
Lemma tp_add_below_octave_zero_aborts (junk : tonal_element) (out : tonal_pitch) :
  tp_add junk (mk_tp (mk_tpc DP_C PA_) 0)
         (mk_ti (mk_tic DI_FIFTH IA_PERFECT) 0 ID_DOWN) out = Abort.
Proof. destruct junk as [[jp ja] jo]. reflexivity. Qed.

(** ** Interval validation *)

(** C9. ti_set rejects a diminished prime of octave 0 in either direction
    and accepts it with octave 1; validate_ti agrees on the assembled
    intervals. *)
Theorem ti_set_diminished_prime (ti : tonal_interval) :
  let dim_prime := mk_tic DI_PRIME IA_DIMINISHED in
  ti_set ti DI_PRIME IA_DIMINISHED 0 ID_UP
    = Done (TONAL_FAIL, mk_ti dim_prime 0 ID_UP) /\
  ti_set ti DI_PRIME IA_DIMINISHED 0 ID_DOWN
    = Done (TONAL_FAIL, mk_ti dim_prime 0 ID_DOWN) /\
  ti_set ti DI_PRIME IA_DIMINISHED 1 ID_UP
    = Done (TONAL_OK, mk_ti dim_prime 1 ID_UP) /\
  ti_set ti DI_PRIME IA_DIMINISHED 1 ID_DOWN
    = Done (TONAL_OK, mk_ti dim_prime 1 ID_DOWN) /\
  validate_ti (mk_ti dim_prime 0 ID_UP) = TONAL_FAIL /\
  validate_ti (mk_ti dim_prime 0 ID_DOWN) = TONAL_FAIL /\
  validate_ti (mk_ti dim_prime 1 ID_UP) = TONAL_OK /\
  validate_ti (mk_ti dim_prime 1 ID_DOWN) = TONAL_OK.
Proof. destruct ti as [[di ia] o d]. repeat split; reflexivity. Qed.

(** C10. validate_ti overwrites the status of validate_tic before testing
    it: an interval of non-negative octave and direction Up or Down whose
    two class fields are in range, and which is not a diminished prime of
    octave 0, is accepted whatever the legality table says of the pair. *)
Theorem validate_ti_ignores_validate_tic (ti : tonal_interval) :
  0 <= ti_octave ti ->
  interval_direction ti = ID_UP \/ interval_direction ti = ID_DOWN ->
  validate_diatonic_interval (diatonic_interval (ti_class ti)) = TONAL_OK ->
  validate_interval_alteration (interval_alteration (ti_class ti)) = TONAL_OK ->
  ~ (ti_octave ti = 0 /\ diatonic_interval (ti_class ti) = DI_PRIME /\
     interval_alteration (ti_class ti) = IA_DIMINISHED) ->
  validate_ti ti = TONAL_OK.
Proof.
  intros Ho Hd _ _ Hn. unfold validate_ti.
  unfold validate_interval_octave.
  replace (0 <=? ti_octave ti) with true by (symmetry; now apply Z.leb_le).
  cbn [is_ok negb].
  assert (validate_interval_direction (interval_direction ti) = TONAL_OK) as ->.
  { destruct Hd as [-> | ->]; reflexivity. }
  cbn [is_ok negb].
  destruct ((0 =? ti_octave ti)
            && (DI_PRIME =? diatonic_interval (ti_class ti))
            && (IA_DIMINISHED =? interval_alteration (ti_class ti))) eqn:E;
    [|reflexivity].
  exfalso. apply Hn.
  apply andb_true_iff in E as [E E3]. apply andb_true_iff in E as [E1 E2].
  apply Z.eqb_eq in E1, E2, E3. auto.
Qed.

Lemma validate_ti_ignores_validate_tic_witness :
  validate_tic (mk_tic DI_SECOND IA_PERFECT) = TONAL_FAIL /\
  validate_ti (mk_ti (mk_tic DI_SECOND IA_PERFECT) 0 ID_UP) = TONAL_OK.
Proof.
  split; [reflexivity|].
  apply (validate_ti_ignores_validate_tic
           (mk_ti (mk_tic DI_SECOND IA_PERFECT) 0 ID_UP)).
  - simpl. lia.
  - left. reflexivity.
  - reflexivity.
  - reflexivity.
  - simpl. intros (_ & H & _). discriminate H.
Defined.

(** ** Reachability of the chromatic range check *)

Lemma validate_alteration_iff a :
  validate_alteration a = TONAL_OK <-> -2 <= a <= 2.
Proof.
  unfold validate_alteration.
  destruct ((-2 <=? a) && (a <=? 2)) eqn:E.
  - apply andb_true_iff in E. rewrite !Z.leb_le in E. tauto.
  - apply andb_false_iff in E. rewrite !Z.leb_gt in E.
    split; [discriminate | lia].
Qed.

(** The reduced chromatic value of the sum of two valid elements. *)
Lemma reduced_cv_bounds (te0 te1 : tonal_element) (o dv cv : Z) :
  validate_te te0 = TONAL_OK ->
  validate_te te1 = TONAL_OK ->
  te_reduce (diatonic_value te0 + diatonic_value te1)
            (chromatic_value te0 + chromatic_value te1) = Done (o, dv, cv) ->
  -4 <= cv <= 15.
Proof.
  intros V0 V1 H.
  apply te_reduce_inv in H as (-> & _ & -> & _).
  apply validate_te_iff in V0 as [Hp0 Ha0].
  apply validate_te_iff in V1 as [Hp1 Ha1].
  destruct te0 as [[p0 a0] o0], te1 as [[p1 a1] o1].
  unfold diatonic_value, chromatic_value.
  cbn [octave te_class diatonic_point alteration] in *.
  destruct (point_cases p0 Hp0) as [->|[->|[->|[->|[->|[->| ->]]]]]];
    destruct (point_cases p1 Hp1) as [->|[->|[->|[->|[->|[->| ->]]]]]];
    autorewrite with mpc;
    Z.to_euclidean_division_equations; lia.
Qed.

(** C4 (as amended). For valid operands whose projections and their sums
    are defined, the reduced chromatic value lies in {-4..15}; it leaves
    {-2..13} only when the required alteration cv - mpc(dv) is outside
    {-2..2} as well, and te_add reports failure exactly when that
    alteration is outside {-2..2}. *)
Theorem te_add_fails_iff_alteration
    (te0 te1 : tonal_element) (d0 d1 c0 c1 o dv cv : Z) :
  validate_te te0 = TONAL_OK ->
  validate_te te1 = TONAL_OK ->
  te_get_diatonic_value te0 = Done d0 ->
  te_get_diatonic_value te1 = Done d1 ->
  te_get_chromatic_value te0 = Done c0 ->
  te_get_chromatic_value te1 = Done c1 ->
  te_reduce (d0 + d1) (c0 + c1) = Done (o, dv, cv) ->
  -4 <= cv <= 15 /\
  (cv < -2 \/ 13 < cv -> ~ (-2 <= cv - dt_get_mpc_value dv <= 2)) /\
  forall out s out',
    te_add te0 te1 out = Done (s, out') ->
    (s = TONAL_FAIL <-> ~ (-2 <= cv - dt_get_mpc_value dv <= 2)).
Proof.
  intros V0 V1 Hd0 Hd1 Hc0 Hc1 Hr.
  destruct (te_get_diatonic_value_inv _ _ V0 Hd0) as (E0 & _).
  destruct (te_get_diatonic_value_inv _ _ V1 Hd1) as (E1 & _).
  destruct (te_get_chromatic_value_inv _ _ V0 Hc0) as (F0 & _).
  destruct (te_get_chromatic_value_inv _ _ V1 Hc1) as (F1 & _).
  assert (-4 <= cv <= 15) as Hb.
  { subst d0 d1 c0 c1. exact (reduced_cv_bounds te0 te1 o dv cv V0 V1 Hr). }
  pose proof Hr as Hr'.
  apply te_reduce_inv in Hr' as (Eo & Edv & Ecv & _ & Hdv & _).
  pose proof (dt_get_mpc_value_bounds dv Hdv) as Hm.
  split; [assumption|]. split; [lia|].
  intros out s out' H. unfold te_add in H. rewrite V0, V1 in H.
  cbn [is_ok negb] in H. rewrite Hd0, Hd1, Hc0, Hc1 in H. cbn [bind] in H.
  apply bind_Done_inv in H as (sd & Hsd & H).
  apply bind_Done_inv in H as (sc & Hsc & H).
  apply checked_inv in Hsd as [-> Hsd]. apply checked_inv in Hsc as [-> Hsc].
  destruct (te_from_dv_cv_defined out (d0 + d1) (c0 + c1) (s, out')
              ltac:(lia) H) as (A1 & A2 & A3).
  rewrite te_from_dv_cv_eval in H by assumption. cbv zeta in H.
  rewrite <- Eo, <- Ecv, <- Edv in H.
  destruct ((cv <? -2) || (13 <? cv)) eqn:Hrange.
  - injection H as <- <-.
    apply orb_true_iff in Hrange. rewrite !Z.ltb_lt in Hrange.
    split; [intros _; lia | intros _; reflexivity].
  - destruct (validate_alteration (cv - dt_get_mpc_value dv)) eqn:Va;
      cbn [is_ok] in H; injection H as <- <-.
    + apply validate_alteration_iff in Va.
      split; [discriminate | intros Hn; exfalso; apply Hn; exact Va].
    + split; [|intros _; reflexivity]. intros _ Hin.
      apply validate_alteration_iff in Hin. congruence.
Qed.

Lemma te_add_fails_iff_alteration_witness :
  -4 <= 14 <= 15 /\
  (14 < -2 \/ 13 < 14 -> ~ (-2 <= 14 - dt_get_mpc_value 5 <= 2)) /\
  forall out s out',
    te_add (mk_te (mk_tc 6 2) 0) (mk_te (mk_tc 6 2) 0) out = Done (s, out') ->
    (s = TONAL_FAIL <-> ~ (-2 <= 14 - dt_get_mpc_value 5 <= 2)).
Proof.
  apply (te_add_fails_iff_alteration
           (mk_te (mk_tc 6 2) 0) (mk_te (mk_tc 6 2) 0) 6 6 13 13 1 5 14);
    reflexivity.
Defined.

(** C4 (as stated) fails: C double flat is valid, the reduced chromatic
    value of C double flat + C double flat is -4, below -2, and te_add
    fails in the chromatic range check, before the output is touched. *)
Lemma te_add_chromatic_range_reached :
  validate_te (mk_te (mk_tc 0 (-2)) 0) = TONAL_OK /\
  te_get_diatonic_value (mk_te (mk_tc 0 (-2)) 0) = Done 0 /\
  te_get_chromatic_value (mk_te (mk_tc 0 (-2)) 0) = Done (-2) /\
  te_reduce (0 + 0) (-2 + -2) = Done (0, 0, -4) /\
  te_add (mk_te (mk_tc 0 (-2)) 0) (mk_te (mk_tc 0 (-2)) 0)
         (mk_te (mk_tc 3 1) 5)
  = Done (TONAL_FAIL, mk_te (mk_tc 3 1) 5).
Proof. repeat split; reflexivity. Qed.

(** ** The output object after a reported failure *)

Ltac unbind H :=
  repeat first
    [ match type of H with
      | bind _ _ = Done _ => apply bind_Done_inv in H as (? & ? & H)
      end
    | match type of H with
      | context [let '(_, _) := ?r in _] => is_var r; destruct r
      | context [negb (is_ok ?s)] =>
          is_var s; destruct s; cbn [is_ok negb] in H
      end ].

Lemma assert_bind_inv {A} b (k : outcome A) r :
  (assert b ;;; k) = Done r -> b = true /\ k = Done r.
Proof. destruct b; simpl; [auto | discriminate]. Qed.

Lemma te_from_dv_cv_fail te dv cv te' :
  te_from_dv_cv te dv cv = Done (TONAL_FAIL, te') ->
  te' = te \/ exists p, 0 <= p <= 6 /\ te' = mk_te (mk_tc p 0) 0.
Proof.
  unfold te_from_dv_cv. intros H.
  apply bind_Done_inv in H as ([[o d] c] & Hr & H).
  apply te_reduce_inv in Hr as (_ & _ & _ & _ & Hd & _).
  destruct ((c <? -2) || (13 <? c)).
  - injection H as <-. now left.
  - apply assert_bind_inv in H as [_ H].
    apply bind_Done_inv in H as (c' & _ & H).
    apply bind_Done_inv in H as (a & _ & H).
    destruct (validate_alteration a); cbn [is_ok negb] in H.
    + apply assert_bind_inv in H as [_ H]. discriminate H.
    + injection H as <-. right. eauto.
Qed.

Lemma te_inv_fail te te' :
  te_inv te = Done (TONAL_FAIL, te') ->
  te' = te \/ exists p, 0 <= p <= 6 /\ te' = mk_te (mk_tc p 0) 0.
Proof.
  unfold te_inv. intros H.
  destruct (validate_te te); cbn [is_ok negb] in H.
  - unbind H. eapply te_from_dv_cv_fail; eassumption.
  - injection H as <-. now left.
Qed.

Lemma te_add_fail te0 te1 te2 te2' :
  te_add te0 te1 te2 = Done (TONAL_FAIL, te2') ->
  te2' = te2 \/ exists p, 0 <= p <= 6 /\ te2' = mk_te (mk_tc p 0) 0.
Proof.
  unfold te_add. intros H.
  destruct (validate_te te0); cbn [is_ok negb] in H;
    [|injection H as <-; now left].
  destruct (validate_te te1); cbn [is_ok negb] in H;
    [|injection H as <-; now left].
  unbind H. eapply te_from_dv_cv_fail; eassumption.
Qed.

Lemma te_sub_fail te0 te1 te2 te2' :
  te_sub te0 te1 te2 = Done (TONAL_FAIL, te2') ->
  te2' = te2 \/ exists p, 0 <= p <= 6 /\ te2' = mk_te (mk_tc p 0) 0.
Proof.
  unfold te_sub. intros H.
  destruct (validate_te te0); cbn [is_ok negb] in H;
    [|injection H as <-; now left].
  destruct (validate_te te1); cbn [is_ok negb] in H;
    [|injection H as <-; now left].
  apply bind_Done_inv in H as ([s i] & _ & H).
  destruct s; cbn [is_ok negb] in H.
  - eapply te_add_fail; eassumption.
  - injection H as <-. now left.
Qed.

Lemma tpc_to_tc_fail tpc tc tc' :
  tpc_to_tc tpc tc = Done (TONAL_FAIL, tc') -> tc' = tc.
Proof.
  unfold tpc_to_tc. intros H.
  destruct (validate_tpc tpc); cbn [is_ok negb] in H.
  - unbind H. discriminate H.
  - now injection H as <-.
Qed.

Lemma tc_to_tpc_fail tc tpc tpc' :
  tc_to_tpc tc tpc = Done (TONAL_FAIL, tpc') -> tpc' = tpc.
Proof.
  unfold tc_to_tpc. intros H.
  destruct (validate_tc tc); cbn [is_ok negb] in H.
  - unbind H. discriminate H.
  - now injection H as <-.
Qed.

Lemma tic_to_tc_fail tic tc tc' :
  tic_to_tc tic tc = Done (TONAL_FAIL, tc') -> tc' = tc.
Proof.
  unfold tic_to_tc. intros H.
  do 4 (apply assert_bind_inv in H as [_ H]).
  destruct (validate_tic tic); cbn [is_ok negb] in H.
  - unbind H. discriminate H.
  - now injection H as <-.
Qed.

(** tc_to_tic stores the diatonic interval before it looks at the
    alteration. *)
Lemma tc_to_tic_fail tc tic tic' :
  tc_to_tic tc tic = Done (TONAL_FAIL, tic') ->
  interval_alteration tic' = interval_alteration tic /\
  (tic' = tic \/ diatonic_interval tic' = diatonic_point tc).
Proof.
  unfold tc_to_tic. intros H.
  destruct (validate_tc tc); cbn [is_ok negb] in H.
  - apply bind_Done_inv in H as (di & Hdi & H).
    apply checked_inv in Hdi as [-> _].
    apply bind_Done_inv in H as (r & _ & H).
    destruct r as [ia|].
    + apply assert_bind_inv in H as [_ H]. discriminate H.
    + injection H as <-. cbn [interval_alteration diatonic_interval].
      unfold DI_PRIME. split; [reflexivity | right; lia].
  - injection H as <-. auto.
Qed.

Lemma tp_to_te_fail tp te te' :
  tp_to_te tp te = Done (TONAL_FAIL, te') -> te' = te.
Proof.
  unfold tp_to_te. intros H.
  destruct (validate_tp tp); cbn [is_ok negb] in H.
  - apply bind_Done_inv in H as ([s tc] & Hc & H).
    destruct s; cbn [is_ok negb] in H.
    + apply assert_bind_inv in H as [_ H]. discriminate H.
    + apply tpc_to_tc_fail in Hc as ->. injection H as <-. now destruct te.
  - now injection H as <-.
Qed.

Lemma te_to_tp_fail te tp tp' :
  te_to_tp te tp = Done (TONAL_FAIL, tp') -> tp' = tp.
Proof.
  unfold te_to_tp. intros H.
  destruct (validate_te te); cbn [is_ok negb] in H.
  - apply bind_Done_inv in H as ([s tpc] & Hc & H).
    destruct s; cbn [is_ok negb] in H.
    + apply assert_bind_inv in H as [_ H]. discriminate H.
    + apply tc_to_tpc_fail in Hc as ->. injection H as <-. now destruct tp.
  - now injection H as <-.
Qed.

Lemma ti_to_te_fail ti te te' :
  ti_to_te ti te = Done (TONAL_FAIL, te') -> te' = te.
Proof.
  unfold ti_to_te. intros H.
  destruct (validate_ti ti); cbn [is_ok negb] in H.
  - apply bind_Done_inv in H as ([s tc] & Hc & H).
    destruct s; cbn [is_ok negb] in H.
    + apply assert_bind_inv in H as [_ H].
      apply bind_Done_inv in H as (e & _ & H).
      apply assert_bind_inv in H as [_ H]. discriminate H.
    + apply tic_to_tc_fail in Hc as ->. injection H as <-. now destruct te.
  - now injection H as <-.
Qed.

Lemma same_but_diatonic_interval_refl ti : same_but_diatonic_interval ti ti.
Proof. repeat split. Qed.

Lemma te_to_ti_fail te ti ti' :
  te_to_ti te ti = Done (TONAL_FAIL, ti') ->
  same_but_diatonic_interval ti ti'.
Proof.
  unfold te_to_ti. intros H.
  destruct (validate_te te); cbn [is_ok negb] in H;
    [|injection H as <-; apply same_but_diatonic_interval_refl].
  apply bind_Done_inv in H as ([s t] & Hb & H).
  destruct s; cbn [is_ok negb] in H.
  { do 2 (apply assert_bind_inv in H as [_ H]). discriminate H. }
  injection H as <-.
  destruct (octave te >=? 0).
  - apply bind_Done_inv in Hb as ([s tic] & Hc & Hb).
    destruct s; cbn [is_ok negb] in Hb; [discriminate Hb|].
    injection Hb as <-. apply tc_to_tic_fail in Hc as [Hc _].
    repeat split. exact Hc.
  - apply bind_Done_inv in Hb as ([s e0] & _ & Hb).
    destruct s; cbn [is_ok negb] in Hb;
      [|injection Hb as <-; apply same_but_diatonic_interval_refl].
    apply bind_Done_inv in Hb as ([s tic] & Hc & Hb).
    destruct s; cbn [is_ok negb] in Hb; [discriminate Hb|].
    injection Hb as <-. apply tc_to_tic_fail in Hc as [Hc _].
    repeat split. exact Hc.
Qed.

Section PublicFailures.

Variable junk : tonal_element.

Lemma tp_add_fail tp ti out out' :
  tp_add junk tp ti out = Done (TONAL_FAIL, out') -> out' = out.
Proof.
  unfold tp_add. cbv zeta. intros H.
  apply bind_Done_inv in H as ([s0 e0] & _ & H).
  destruct s0; cbn [is_ok negb] in H; [|now injection H as <-].
  apply bind_Done_inv in H as ([s1 e1] & _ & H).
  destruct s1; cbn [is_ok negb] in H; [|now injection H as <-].
  apply bind_Done_inv in H as ([s2 e2] & _ & H).
  destruct s2; cbn [is_ok negb] in H; [|now injection H as <-].
  now apply te_to_tp_fail in H.
Qed.

Lemma ti_add_fail ti0 ti1 out out' :
  ti_add junk ti0 ti1 out = Done (TONAL_FAIL, out') ->
  same_but_diatonic_interval out out'.
Proof.
  unfold ti_add. cbv zeta. intros H.
  apply bind_Done_inv in H as ([s0 e0] & _ & H).
  destruct s0; cbn [is_ok negb] in H;
    [|injection H as <-; apply same_but_diatonic_interval_refl].
  apply bind_Done_inv in H as ([s1 e1] & _ & H).
  destruct s1; cbn [is_ok negb] in H;
    [|injection H as <-; apply same_but_diatonic_interval_refl].
  apply bind_Done_inv in H as ([s2 e2] & _ & H).
  destruct s2; cbn [is_ok negb] in H;
    [|injection H as <-; apply same_but_diatonic_interval_refl].
  now apply te_to_ti_fail in H.
Qed.

Lemma tp_sub_fail tp0 tp1 out out' :
  tp_sub junk tp0 tp1 out = Done (TONAL_FAIL, out') ->
  same_but_diatonic_interval out out'.
Proof.
  unfold tp_sub. cbv zeta. intros H.
  apply bind_Done_inv in H as ([s0 e0] & _ & H).
  destruct s0; cbn [is_ok negb] in H;
    [|injection H as <-; apply same_but_diatonic_interval_refl].
  apply bind_Done_inv in H as ([s1 e1] & _ & H).
  destruct s1; cbn [is_ok negb] in H;
    [|injection H as <-; apply same_but_diatonic_interval_refl].
  apply bind_Done_inv in H as ([s2 e2] & _ & H).
  destruct s2; cbn [is_ok negb] in H;
    [|injection H as <-; apply same_but_diatonic_interval_refl].
  now apply te_to_ti_fail in H.
Qed.

Lemma ti_sub_fail ti0 ti1 out out' :
  ti_sub junk ti0 ti1 out = Done (TONAL_FAIL, out') ->
  same_but_diatonic_interval out out'.
Proof.
  unfold ti_sub. cbv zeta. intros H.
  apply bind_Done_inv in H as ([s0 e0] & _ & H).
  destruct s0; cbn [is_ok negb] in H;
    [|injection H as <-; apply same_but_diatonic_interval_refl].
  apply bind_Done_inv in H as ([s1 e1] & _ & H).
  destruct s1; cbn [is_ok negb] in H;
    [|injection H as <-; apply same_but_diatonic_interval_refl].
  apply bind_Done_inv in H as ([s2 e2] & _ & H).
  destruct s2; cbn [is_ok negb] in H;
    [|injection H as <-; apply same_but_diatonic_interval_refl].
  now apply te_to_ti_fail in H.
Qed.

End PublicFailures.

(** C7 (as amended). A reported failure leaves the output object exactly
    as it was for tp_add and for the conversions tpc_to_tc, tc_to_tpc,
    tic_to_tc, tp_to_te, te_to_tp and ti_to_te.  After a failed te_add,
    te_sub or te_inv the output either is as it was or holds the scratch
    element {reduced point, alteration 0, octave 0}.  After a failed
    tc_to_tic, te_to_ti, ti_add, tp_sub or ti_sub every field of the output
    but diatonic_interval is as it was. *)
Theorem output_after_failure :
  (forall junk tp ti out out',
      tp_add junk tp ti out = Done (TONAL_FAIL, out') -> out' = out) /\
  (forall tpc out out',
      tpc_to_tc tpc out = Done (TONAL_FAIL, out') -> out' = out) /\
  (forall tc out out',
      tc_to_tpc tc out = Done (TONAL_FAIL, out') -> out' = out) /\
  (forall tic out out',
      tic_to_tc tic out = Done (TONAL_FAIL, out') -> out' = out) /\
  (forall tp out out',
      tp_to_te tp out = Done (TONAL_FAIL, out') -> out' = out) /\
  (forall te out out',
      te_to_tp te out = Done (TONAL_FAIL, out') -> out' = out) /\
  (forall ti out out',
      ti_to_te ti out = Done (TONAL_FAIL, out') -> out' = out) /\
  (forall te0 te1 out out',
      te_add te0 te1 out = Done (TONAL_FAIL, out') ->
      retained_or_scratch out out') /\
  (forall te0 te1 out out',
      te_sub te0 te1 out = Done (TONAL_FAIL, out') ->
      retained_or_scratch out out') /\
  (forall te te',
      te_inv te = Done (TONAL_FAIL, te') -> retained_or_scratch te te') /\
  (forall tc out out',
      tc_to_tic tc out = Done (TONAL_FAIL, out') ->
      interval_alteration out' = interval_alteration out) /\
  (forall te out out',
      te_to_ti te out = Done (TONAL_FAIL, out') ->
      same_but_diatonic_interval out out') /\
  (forall junk ti0 ti1 out out',
      ti_add junk ti0 ti1 out = Done (TONAL_FAIL, out') ->
      same_but_diatonic_interval out out') /\
  (forall junk tp0 tp1 out out',
      tp_sub junk tp0 tp1 out = Done (TONAL_FAIL, out') ->
      same_but_diatonic_interval out out') /\
  (forall junk ti0 ti1 out out',
      ti_sub junk ti0 ti1 out = Done (TONAL_FAIL, out') ->
      same_but_diatonic_interval out out').
Proof.
  repeat match goal with |- _ /\ _ => split end.
  - apply tp_add_fail.
  - apply tpc_to_tc_fail.
  - apply tc_to_tpc_fail.
  - apply tic_to_tc_fail.
  - apply tp_to_te_fail.
  - apply te_to_tp_fail.
  - apply ti_to_te_fail.
  - apply te_add_fail.
  - apply te_sub_fail.
  - apply te_inv_fail.
  - intros tc out out' H. now apply tc_to_tic_fail in H.
  - apply te_to_ti_fail.
  - apply ti_add_fail.
  - apply tp_sub_fail.
  - apply ti_sub_fail.
Qed.

(** C7 (as stated) fails.  C double sharp + C double sharp needs the
    alteration 4: te_add reports failure after te_from_dv_cv has stored
    {point 0, alteration 0, octave 0} in the output.  The class
    {point 1, alteration 2} names no interval: tc_to_tic reports failure
    after storing the diatonic interval.  The same happens through the
    public ti_add, for an augmented second plus an augmented prime. *)
Lemma failure_overwrites_output :
  te_add (mk_te (mk_tc 0 2) 0) (mk_te (mk_tc 0 2) 0) (mk_te (mk_tc 3 1) 5)
  = Done (TONAL_FAIL, mk_te (mk_tc 0 0) 0) /\
  mk_te (mk_tc 0 0) 0 <> mk_te (mk_tc 3 1) 5 /\
  tc_to_tic (mk_tc 1 2) (mk_tic DI_FIFTH IA_PERFECT)
  = Done (TONAL_FAIL, mk_tic DI_SECOND IA_PERFECT) /\
  mk_tic DI_SECOND IA_PERFECT <> mk_tic DI_FIFTH IA_PERFECT /\
  ti_add TONAL_ELEMENT_ZERO
         (mk_ti (mk_tic DI_SECOND IA_AUGMENTED) 0 ID_UP)
         (mk_ti (mk_tic DI_PRIME IA_AUGMENTED) 0 ID_UP)
         (mk_ti (mk_tic DI_FIFTH IA_PERFECT) 3 ID_DOWN)
  = Done (TONAL_FAIL, mk_ti (mk_tic DI_SECOND IA_PERFECT) 3 ID_DOWN).
Proof. repeat split; try reflexivity; discriminate. Qed.

(** ** Round trips through the unified representations *)

Lemma validate_tpc_iff tpc :
  validate_tpc tpc = TONAL_OK <->
  0 <= diatonic_pitch tpc <= 6 /\ 0 <= pitch_alteration tpc <= 4.
Proof.
  unfold validate_tpc, validate_diatonic_pitch, validate_pitch_alteration,
    DP_C, DP_B, PA_bb, PA_ss.
  destruct (0 <=? diatonic_pitch tpc) eqn:E1,
           (diatonic_pitch tpc <=? 6) eqn:E2,
           (0 <=? pitch_alteration tpc) eqn:E3,
           (pitch_alteration tpc <=? 4) eqn:E4; simpl;
    rewrite ?Z.leb_le, ?Z.leb_gt in *;
    (split; [try discriminate; try lia | intros; try reflexivity; lia]).
Qed.

Lemma pitch_alteration_cases a :
  0 <= a <= 4 -> a = 0 \/ a = 1 \/ a = 2 \/ a = 3 \/ a = 4.
Proof. lia. Qed.

Lemma tpc_roundtrip (tpc : tonal_pitch_class) (tc0 : tonal_class)
    (out : tonal_pitch_class) :
  validate_tpc tpc = TONAL_OK ->
  exists tc,
    tpc_to_tc tpc tc0 = Done (TONAL_OK, tc) /\
    validate_tc tc = TONAL_OK /\
    tc_to_tpc tc out = Done (TONAL_OK, tpc).
Proof.
  intros V. apply validate_tpc_iff in V as [Hp Ha].
  destruct tpc as [p a]. cbn [diatonic_pitch pitch_alteration] in *.
  destruct (point_cases p Hp) as [->|[->|[->|[->|[->|[->| ->]]]]]];
    destruct (pitch_alteration_cases a Ha) as [->|[->|[->|[->| ->]]]];
    eexists; (split; [reflexivity | split; reflexivity]).
Qed.

Lemma validate_tic_ranges tic :
  validate_tic tic = TONAL_OK ->
  0 <= diatonic_interval tic <= 6 /\ 0 <= interval_alteration tic <= 4.
Proof.
  unfold validate_tic, validate_diatonic_interval,
    validate_interval_alteration, DI_PRIME, DI_SEVENTH, IA_DIMINISHED,
    IA_AUGMENTED.
  destruct (0 <=? diatonic_interval tic) eqn:E1,
           (diatonic_interval tic <=? 6) eqn:E2; simpl; try discriminate.
  destruct (0 <=? interval_alteration tic) eqn:E3,
           (interval_alteration tic <=? 4) eqn:E4; simpl; try discriminate.
  rewrite Z.leb_le in *. auto.
Qed.

Lemma tic_roundtrip (tic : tonal_interval_class) (tc0 : tonal_class)
    (out : tonal_interval_class) :
  validate_tic tic = TONAL_OK ->
  exists tc,
    tic_to_tc tic tc0 = Done (TONAL_OK, tc) /\
    validate_tc tc = TONAL_OK /\
    alteration tc <= 1 /\
    diatonic_point tc = diatonic_interval tic /\
    tc_to_tic tc out = Done (TONAL_OK, tic).
Proof.
  intros V. destruct (validate_tic_ranges _ V) as [Hp Ha].
  destruct tic as [p a], out as [op oa].
  cbn [diatonic_interval interval_alteration] in *.
  destruct (point_cases p Hp) as [->|[->|[->|[->|[->|[->| ->]]]]]];
    destruct (pitch_alteration_cases a Ha) as [->|[->|[->|[->| ->]]]];
    try discriminate V;
    eexists; (split; [reflexivity|]); repeat split; discriminate.
Qed.

Lemma geb_true o : 0 <= o -> (o >=? 0) = true.
Proof. intros H. rewrite Z.geb_leb. now apply Z.leb_le. Qed.

Lemma geb_false o : o < 0 -> (o >=? 0) = false.
Proof. intros H. rewrite Z.geb_leb. now apply Z.leb_gt. Qed.

Lemma validate_tp_iff tp :
  validate_tp tp = TONAL_OK <->
  0 <= tp_octave tp /\ validate_tpc (tp_class tp) = TONAL_OK.
Proof.
  unfold validate_tp. destruct (tp_octave tp <? 0) eqn:E.
  - apply Z.ltb_lt in E. split; [discriminate | lia].
  - apply Z.ltb_ge in E. tauto.
Qed.

Lemma tp_roundtrip (tp : tonal_pitch) (te0 : tonal_element)
    (out : tonal_pitch) :
  validate_tp tp = TONAL_OK ->
  exists te,
    tp_to_te tp te0 = Done (TONAL_OK, te) /\
    te_to_tp te out = Done (TONAL_OK, tp).
Proof.
  intros V. pose proof V as V'. apply validate_tp_iff in V' as [Ho Vc].
  destruct (tpc_roundtrip (tp_class tp) (te_class te0) (tp_class out) Vc)
    as (tc & Hf & Vtc & Hb).
  exists (mk_te tc (tp_octave tp)). split.
  - unfold tp_to_te. rewrite V. cbn [is_ok negb]. rewrite Hf.
    cbn [bind is_ok negb te_class octave].
    unfold validate_te. cbn [te_class]. rewrite Vtc. reflexivity.
  - unfold te_to_tp, validate_te. cbn [te_class octave]. rewrite Vtc.
    cbn [is_ok negb]. rewrite Hb. cbn [bind is_ok negb tp_class tp_octave].
    replace (mk_tp (tp_class tp) (tp_octave tp)) with tp by now destruct tp.
    rewrite V. reflexivity.
Qed.

Lemma validate_ti_iff ti :
  validate_ti ti = TONAL_OK <->
  0 <= ti_octave ti /\
  (interval_direction ti = ID_UP \/ interval_direction ti = ID_DOWN) /\
  ~ (ti_octave ti = 0 /\ diatonic_interval (ti_class ti) = DI_PRIME /\
     interval_alteration (ti_class ti) = IA_DIMINISHED).
Proof.
  unfold validate_ti, validate_interval_octave, validate_interval_direction.
  destruct (0 <=? ti_octave ti) eqn:E1; cbn [is_ok negb].
  2: { apply Z.leb_gt in E1. split; [discriminate | lia]. }
  apply Z.leb_le in E1.
  destruct ((interval_direction ti =? ID_UP)
            || (interval_direction ti =? ID_DOWN)) eqn:E2; cbn [is_ok negb].
  2: { apply orb_false_iff in E2. rewrite !Z.eqb_neq in E2.
       split; [discriminate | tauto]. }
  apply orb_true_iff in E2. rewrite !Z.eqb_eq in E2.
  destruct ((0 =? ti_octave ti)
            && (DI_PRIME =? diatonic_interval (ti_class ti))
            && (IA_DIMINISHED =? interval_alteration (ti_class ti))) eqn:E3.
  - apply andb_true_iff in E3 as [E3 E5]. apply andb_true_iff in E3 as [E3 E4].
    apply Z.eqb_eq in E3, E4, E5. split; [discriminate|].
    intros (_ & _ & Hn). exfalso. apply Hn. auto.
  - split; [|reflexivity]. intros _. split; [assumption|]. split; [assumption|].
    intros (H1 & H2 & H3).
    rewrite H1, H2, H3 in E3. discriminate E3.
Qed.

(** On the classes that name an interval (alteration at most 1) te_inv
    succeeds and is its own inverse. *)
Lemma te_inv_involutive (e : tonal_element) :
  validate_te e = TONAL_OK ->
  alteration (te_class e) <= 1 ->
  0 <= octave e ->
  12 * (octave e + 1) <= INT_MAX ->
  exists i,
    te_inv e = Done (TONAL_OK, i) /\
    validate_te i = TONAL_OK /\
    (octave i < 0 \/ diatonic_point (te_class e) = 0 /\ octave e = 0) /\
    (octave i < 0 -> te_inv i = Done (TONAL_OK, e)).
Proof.
  intros V Ha1 Ho Hhi. pose proof V as V'.
  apply validate_te_iff in V' as [Hp Ha].
  assert (invertible_octave (octave e)) as Hinv
      by (unfold invertible_octave, INT_MIN, INT_MAX in *; lia).
  rewrite (te_inv_eval e V Hinv). cbv zeta.
  destruct e as [[p a] o]. cbn [octave te_class diatonic_point alteration] in *.
  assert ((a =? 2) = false) as Ea by (apply Z.eqb_neq; lia).
  assert ((-1 - a =? 2) = false) as Ea' by (apply Z.eqb_neq; lia).
  destruct (point_cases p Hp) as [->|[->|[->|[->|[->|[->| ->]]]]]];
    cbn [Z.eqb Pos.eqb orb]; rewrite ?Ea;
    eexists; (split; [reflexivity|]);
    (split; [apply validate_te_iff; cbn [te_class diatonic_point alteration];
             lia|]);
    cbn [octave];
    (split; [lia|]); intros Hneg;
    (rewrite te_inv_eval;
     [ | apply validate_te_iff; cbn [te_class diatonic_point alteration]; lia
       | unfold invertible_octave, INT_MIN, INT_MAX in *; cbn [octave]; lia ]);
    cbv zeta; cbn [octave te_class diatonic_point alteration];
    norm7; cbn [Z.eqb Pos.eqb orb]; rewrite ?Ea'; te_eq.
Qed.

Lemma ti_roundtrip (ti : tonal_interval) (te0 : tonal_element)
    (out : tonal_interval) :
  validate_ti ti = TONAL_OK ->
  validate_tic (ti_class ti) = TONAL_OK ->
  (interval_direction ti = ID_DOWN -> 12 * (ti_octave ti + 1) <= INT_MAX) ->
  ~ (interval_direction ti = ID_DOWN /\
     diatonic_interval (ti_class ti) = DI_PRIME /\ ti_octave ti = 0) ->
  exists te,
    ti_to_te ti te0 = Done (TONAL_OK, te) /\
    te_to_ti te out = Done (TONAL_OK, ti).
Proof.
  intros V Vc Hhi Hn. pose proof V as V'.
  apply validate_ti_iff in V' as (Ho & Hdir & _).
  destruct (tic_roundtrip (ti_class ti) (te_class te0) (ti_class out) Vc)
    as (tc & Hf & Vtc & Ha1 & Hp & Hb).
  assert (validate_te (mk_te tc (ti_octave ti)) = TONAL_OK) as Ve by exact Vtc.
  assert (mk_ti (ti_class ti) (ti_octave ti) (interval_direction ti) = ti)
    as Eta by now destruct ti.
  destruct Hdir as [Hup | Hdown].
  - (* Up *)
    exists (mk_te tc (ti_octave ti)). split.
    + unfold ti_to_te. rewrite V. cbn [is_ok negb]. rewrite Hf.
      cbn [bind is_ok negb te_class octave]. rewrite Ve.
      cbn [is_ok assert bind]. rewrite Hup.
      change (ID_DOWN =? ID_UP) with false. cbn [bind]. rewrite Ve.
      reflexivity.
    + unfold te_to_ti. rewrite Ve. cbn [is_ok negb octave te_class].
      rewrite geb_true by assumption. rewrite Hb.
      cbn [bind is_ok negb ti_class ti_octave].
      rewrite <- Hup, Eta.
      replace (0 <=? ti_octave ti) with true
        by (symmetry; now apply Z.leb_le).
      cbn [assert bind]. rewrite V. reflexivity.
  - (* Down *)
    destruct (te_inv_involutive (mk_te tc (ti_octave ti)) Ve Ha1 Ho
                (Hhi Hdown))
      as (i & Hi & Vi & Hneg & Hback).
    cbn [octave te_class] in Hneg.
    assert (octave i < 0) as Hlt.
    { destruct Hneg as [?|[H0 H1]]; [assumption|].
      exfalso. apply Hn. unfold DI_PRIME. rewrite <- Hp. auto. }
    exists i. split.
    + unfold ti_to_te. rewrite V. cbn [is_ok negb]. rewrite Hf.
      cbn [bind is_ok negb te_class octave]. rewrite Ve.
      cbn [is_ok assert bind]. rewrite Hdown.
      change (ID_DOWN =? ID_DOWN) with true. rewrite Hi.
      cbn [bind is_ok assert]. rewrite Vi. reflexivity.
    + specialize (Hback Hlt).
      unfold te_to_ti. rewrite Vi. cbn [is_ok negb].
      rewrite geb_false by assumption.
      replace (mk_te (mk_tc (diatonic_point (te_class i))
                            (alteration (te_class i))) (octave i))
        with i by now destruct i as [[? ?] ?].
      rewrite Hback. cbn [bind is_ok negb te_class octave]. rewrite Hb.
      cbn [bind is_ok negb ti_class ti_octave].
      rewrite <- Hdown, Eta.
      replace (0 <=? ti_octave ti) with true
        by (symmetry; now apply Z.leb_le).
      cbn [assert bind]. rewrite V. reflexivity.
Qed.

(** C5 (as amended). Pitch -> Element -> Pitch, Pitch Class -> Class ->
    Pitch Class and Interval Class -> Class -> Interval Class succeed and
    return their valid argument unchanged.  Interval -> Element -> Interval
    does so for every interval that validate_ti accepts and whose class is
    legal, except the primes of octave 0 and direction Down (and provided
    12 * (octave + 1) fits an int when the direction is Down); the perfect
    prime of octave 0 and direction Down comes back with direction Up. *)
Theorem conversion_roundtrips :
  (forall tp te0 out,
      validate_tp tp = TONAL_OK ->
      exists te, tp_to_te tp te0 = Done (TONAL_OK, te) /\
                 te_to_tp te out = Done (TONAL_OK, tp)) /\
  (forall ti te0 out,
      validate_ti ti = TONAL_OK ->
      validate_tic (ti_class ti) = TONAL_OK ->
      (interval_direction ti = ID_DOWN ->
       12 * (ti_octave ti + 1) <= INT_MAX) ->
      ~ (interval_direction ti = ID_DOWN /\
         diatonic_interval (ti_class ti) = DI_PRIME /\ ti_octave ti = 0) ->
      exists te, ti_to_te ti te0 = Done (TONAL_OK, te) /\
                 te_to_ti te out = Done (TONAL_OK, ti)) /\
  (forall tpc tc0 out,
      validate_tpc tpc = TONAL_OK ->
      exists tc, tpc_to_tc tpc tc0 = Done (TONAL_OK, tc) /\
                 tc_to_tpc tc out = Done (TONAL_OK, tpc)) /\
  (forall tic tc0 out,
      validate_tic tic = TONAL_OK ->
      exists tc, tic_to_tc tic tc0 = Done (TONAL_OK, tc) /\
                 tc_to_tic tc out = Done (TONAL_OK, tic)) /\
  (forall te0 out,
      exists te,
        ti_to_te (mk_ti (mk_tic DI_PRIME IA_PERFECT) 0 ID_DOWN) te0
        = Done (TONAL_OK, te) /\
        te_to_ti te out
        = Done (TONAL_OK, mk_ti (mk_tic DI_PRIME IA_PERFECT) 0 ID_UP)).
Proof.
  split; [exact tp_roundtrip|]. split; [exact ti_roundtrip|].
  split.
  { intros tpc tc0 out V.
    destruct (tpc_roundtrip tpc tc0 out V) as (tc & H1 & _ & H2). eauto. }
  split.
  { intros tic tc0 out V.
    destruct (tic_roundtrip tic tc0 out V) as (tc & H1 & _ & _ & _ & H2).
    eauto. }
  intros [[p a] o] [[di ia] oo d].
  exists TONAL_ELEMENT_ZERO. split; reflexivity.
Qed.

(** C5 (as stated) fails on the perfect prime of octave 0 and direction
    Down: it is a valid interval, its element is ZERO, and ZERO converts
    back to the perfect prime of direction Up. *)
Lemma roundtrip_loses_direction_of_down_prime :
  validate_ti (mk_ti (mk_tic DI_PRIME IA_PERFECT) 0 ID_DOWN) = TONAL_OK /\
  validate_tic (mk_tic DI_PRIME IA_PERFECT) = TONAL_OK /\
  ti_to_te (mk_ti (mk_tic DI_PRIME IA_PERFECT) 0 ID_DOWN) TONAL_ELEMENT_ZERO
  = Done (TONAL_OK, TONAL_ELEMENT_ZERO) /\
  te_to_ti TONAL_ELEMENT_ZERO (mk_ti (mk_tic DI_PRIME IA_PERFECT) 0 ID_DOWN)
  = Done (TONAL_OK, mk_ti (mk_tic DI_PRIME IA_PERFECT) 0 ID_UP) /\
  mk_ti (mk_tic DI_PRIME IA_PERFECT) 0 ID_UP
  <> mk_ti (mk_tic DI_PRIME IA_PERFECT) 0 ID_DOWN.
Proof. repeat split; try reflexivity. discriminate. Qed.

(** The augmented prime of octave 0 and direction Down does not come back
    at all: its element {point 0, alteration -1, octave 0} converts to the
    diminished prime of octave 0, which the closing assertion of te_to_ti
    rejects. *)
Lemma roundtrip_aborts_on_down_augmented_prime (out : tonal_interval) :
  let down := mk_ti (mk_tic DI_PRIME IA_AUGMENTED) 0 ID_DOWN in
  validate_ti down = TONAL_OK /\
  ti_to_te down TONAL_ELEMENT_ZERO
  = Done (TONAL_OK, mk_te (mk_tc 0 (-1)) 0) /\
  te_to_ti (mk_te (mk_tc 0 (-1)) 0) out = Abort.
Proof. destruct out as [[di ia] o d]. cbv zeta. repeat split. Qed.

(** * The unit tests of the repository, replayed on the embedding *)

Example test_dt_get_mpc_value :
  map dt_get_mpc_value [-1; 0; 1; 2; 3; 4; 5; 6; 7]
  = [INT_MIN; 0; 2; 4; 5; 7; 9; 11; INT_MIN].
Proof. reflexivity. Qed.

Example test_tc_get_mpc_value : tc_get_mpc_value (mk_tc 6 2) = Done 13.
Proof. reflexivity. Qed.

Example test_te_get_diatonic_value :
  te_get_diatonic_value (mk_te (mk_tc 6 2) (-1)) = Done (-1).
Proof. reflexivity. Qed.

Example test_te_get_chromatic_value :
  te_get_chromatic_value (mk_te (mk_tc 6 2) (-1)) = Done 1.
Proof. reflexivity. Qed.

Example test_tc_to_tic :
  tc_to_tic (mk_tc 3 1) (mk_tic 9 9)
  = Done (TONAL_OK, mk_tic DI_FOURTH IA_AUGMENTED) /\
  (exists t, tc_to_tic (mk_tc 0 (-2)) (mk_tic 9 9) = Done (TONAL_FAIL, t)) /\
  (exists t, tc_to_tic (mk_tc 1 2) (mk_tic 9 9) = Done (TONAL_FAIL, t)).
Proof. repeat split; eexists; reflexivity. Qed.

Example test_te_inv :
  te_inv (mk_te (mk_tc 2 (-1)) 0) = Done (TONAL_OK, mk_te (mk_tc 5 0) (-1)) /\
  te_inv (mk_te (mk_tc 0 0) 1) = Done (TONAL_OK, mk_te (mk_tc 0 0) (-1)).
Proof. split; reflexivity. Qed.

Example test_ti_to_te :
  ti_to_te (mk_ti (mk_tic DI_FIFTH IA_DIMINISHED) 1 ID_UP) any_te
  = Done (TONAL_OK, mk_te (mk_tc 4 (-1)) 1) /\
  ti_to_te (mk_ti (mk_tic DI_FIFTH IA_DIMINISHED) 1 ID_DOWN) any_te
  = Done (TONAL_OK, mk_te (mk_tc 3 1) (-2)).
Proof. split; reflexivity. Qed.

Example test_te_to_ti :
  te_to_ti (mk_te (mk_tc 6 0) 0) any_ti
  = Done (TONAL_OK, mk_ti (mk_tic DI_SEVENTH IA_MAJOR) 0 ID_UP).
Proof. reflexivity. Qed.

Example test_te_add :
  te_add (mk_te (mk_tc 6 (-1)) 5) (mk_te (mk_tc 1 0) (-6)) any_te
  = Done (TONAL_OK, TONAL_ELEMENT_ZERO).
Proof. reflexivity. Qed.

(* Example 2.1: G0 + perfect fourth = C1. *)
Example example2_1 :
  tp_add any_te (mk_tp (mk_tpc DP_G PA_) 0)
         (mk_ti (mk_tic DI_FOURTH IA_PERFECT) 0 ID_UP) any_tp
  = Done (TONAL_OK, mk_tp (mk_tpc DP_C PA_) 1).
Proof. reflexivity. Qed.

(* Example 2.2: major third + minor third = perfect fifth. *)
Example example2_2 :
  ti_add any_te (mk_ti (mk_tic DI_THIRD IA_MAJOR) 0 ID_UP)
         (mk_ti (mk_tic DI_THIRD IA_MINOR) 0 ID_UP) any_ti
  = Done (TONAL_OK, mk_ti (mk_tic DI_FIFTH IA_PERFECT) 0 ID_UP).
Proof. reflexivity. Qed.

Example test_ti_ranges :
  map (fun '(di, ia, o, d) =>
         match ti_set any_ti di ia o d with
         | Done (s, _) => Some s
         | _ => None
         end)
      [ (DI_PRIME, IA_DIMINISHED, 0, ID_UP);
        (DI_PRIME, IA_DIMINISHED, 3, ID_UP);
        (DI_PRIME, IA_MINOR, 3, ID_UP);
        (DI_PRIME, IA_PERFECT, 3, ID_DOWN);
        (DI_PRIME, IA_NONE, 0, ID_UP);
        (DI_SECOND, IA_PERFECT, 3, ID_DOWN);
        (DI_SECOND, IA_AUGMENTED, 0, ID_UP);
        (DI_PRIME, IA_PERFECT, -1, ID_UP) ]
  = [ Some TONAL_FAIL; Some TONAL_OK; Some TONAL_FAIL; Some TONAL_OK;
      Some TONAL_FAIL; Some TONAL_FAIL; Some TONAL_OK; Some TONAL_FAIL ].
Proof. reflexivity. Qed.

(* Ebb4 shifted up four augmented primes is E##4; a fifth shift fails. *)
Example test_tp_add1 :
  let aug := mk_ti (mk_tic DI_PRIME IA_AUGMENTED) 0 ID_UP in
  shift 4 (mk_tp (mk_tpc DP_E PA_bb) 4) aug
  = Done (TONAL_OK, mk_tp (mk_tpc DP_E PA_ss) 4) /\
  shift 5 (mk_tp (mk_tpc DP_E PA_bb) 4) aug = Done (TONAL_FAIL, any_tp).
Proof. split; reflexivity. Qed.

(* B##20 shifted down 34 perfect fifths is Fbb1; a 35th shift fails. *)
Example test_tp_add2 :
  let fifth := mk_ti (mk_tic DI_FIFTH IA_PERFECT) 0 ID_DOWN in
  shift 34 (mk_tp (mk_tpc DP_B PA_ss) 20) fifth
  = Done (TONAL_OK, mk_tp (mk_tpc DP_F PA_bb) 1) /\
  shift 35 (mk_tp (mk_tpc DP_B PA_ss) 20) fifth = Done (TONAL_FAIL, any_tp).
Proof. split; vm_compute; reflexivity. Qed.

(** * Further properties of the Tonal Element arithmetic *)

Lemma checked_cases z : checked z = Done z \/ checked z = Undefined.
Proof. unfold checked. destruct (in_int z); auto. Qed.

Lemma checked_no_abort z : checked z <> Abort.
Proof. destruct (checked_cases z) as [-> | ->]; discriminate. Qed.

Lemma bind_no_abort {A B} (m : outcome A) (k : A -> outcome B) :
  m <> Abort -> (forall a, m = Done a -> k a <> Abort) -> bind m k <> Abort.
Proof.
  intros Hm Hk. destruct m as [a| |]; cbn [bind];
    [now apply Hk | congruence | discriminate].
Qed.

Lemma tc_get_mpc_value_no_abort tc : tc_get_mpc_value tc <> Abort.
Proof.
  destruct (validate_tc tc) eqn:V.
  - rewrite (tc_get_mpc_value_valid _ V). discriminate.
  - unfold tc_get_mpc_value. rewrite V. discriminate.
Qed.

Lemma te_get_diatonic_value_no_abort te : te_get_diatonic_value te <> Abort.
Proof.
  unfold te_get_diatonic_value.
  destruct (validate_te te); cbn [is_ok negb]; [|discriminate].
  apply bind_no_abort; [apply checked_no_abort|].
  intros m _. apply checked_no_abort.
Qed.

Lemma te_get_chromatic_value_no_abort te : te_get_chromatic_value te <> Abort.
Proof.
  unfold te_get_chromatic_value.
  destruct (validate_te te); cbn [is_ok negb]; [|discriminate].
  apply bind_no_abort; [apply checked_no_abort|].
  intros m _. apply bind_no_abort; [apply tc_get_mpc_value_no_abort|].
  intros v _. apply checked_no_abort.
Qed.

Lemma te_reduce_no_abort dv cv : te_reduce dv cv <> Abort.
Proof.
  unfold te_reduce.
  apply bind_no_abort.
  { destruct (dv <=? 0).
    - apply bind_no_abort; [apply checked_no_abort|].
      intros d _. apply checked_no_abort.
    - apply checked_no_abort. }
  intros o _. apply bind_no_abort; [apply checked_no_abort|].
  intros o7 _. apply bind_no_abort; [apply checked_no_abort|].
  intros d _. apply bind_no_abort; [apply checked_no_abort|].
  intros o12 _. apply bind_no_abort; [apply checked_no_abort|].
  intros c _. discriminate.
Qed.

Lemma te_from_dv_cv_no_abort te dv cv : te_from_dv_cv te dv cv <> Abort.
Proof.
  unfold te_from_dv_cv.
  apply bind_no_abort; [apply te_reduce_no_abort|].
  intros [[o d] c] Hr.
  apply te_reduce_inv in Hr as (_ & _ & _ & _ & Hd & _).
  destruct ((c <? -2) || (13 <? c)); [discriminate|].
  assert (validate_diatonic_point d = TONAL_OK) as Vd.
  { unfold validate_diatonic_point.
    replace ((0 <=? d) && (d <=? 6)) with true; [reflexivity|].
    symmetry. apply andb_true_iff. rewrite !Z.leb_le. lia. }
  rewrite Vd. cbn [is_ok assert bind].
  apply bind_no_abort; [apply te_get_chromatic_value_no_abort|].
  intros c' _. apply bind_no_abort; [apply checked_no_abort|].
  intros a _.
  destruct (validate_alteration a) eqn:Va; cbn [is_ok negb]; [|discriminate].
  unfold validate_te, validate_tc. cbn [te_class diatonic_point alteration].
  rewrite Vd, Va. discriminate.
Qed.

Lemma te_inv_no_abort te : te_inv te <> Abort.
Proof.
  unfold te_inv. destruct (validate_te te); cbn [is_ok negb]; [|discriminate].
  apply bind_no_abort; [apply te_get_diatonic_value_no_abort|].
  intros d _. apply bind_no_abort; [apply checked_no_abort|].
  intros dv _. apply bind_no_abort; [apply te_get_chromatic_value_no_abort|].
  intros c _. apply bind_no_abort; [apply checked_no_abort|].
  intros cv _. apply te_from_dv_cv_no_abort.
Qed.




(** ** Commutativity *)

Lemma te_add_comm (te0 te1 te2 : tonal_element) :
  te_add te0 te1 te2 = te_add te1 te0 te2.
Proof.
  unfold te_add.
  destruct (validate_te te0), (validate_te te1); cbn [is_ok negb];
    try reflexivity.
  pose proof (te_get_diatonic_value_no_abort te0) as A0.
  pose proof (te_get_diatonic_value_no_abort te1) as A1.
  pose proof (te_get_chromatic_value_no_abort te0) as B0.
  pose proof (te_get_chromatic_value_no_abort te1) as B1.
  destruct (te_get_diatonic_value te0) as [d0| |],
           (te_get_diatonic_value te1) as [d1| |];
    cbn [bind]; try congruence.
  unfold iadd. rewrite (Z.add_comm d1 d0).
  destruct (checked_cases (d0 + d1)) as [-> | ->]; cbn [bind];
    [|reflexivity].
  destruct (te_get_chromatic_value te0) as [c0| |],
           (te_get_chromatic_value te1) as [c1| |];
    cbn [bind]; try congruence.
  now rewrite (Z.add_comm c1 c0).
Qed.

(** X2. te_add is commutative as a whole: te_add(te0, te1, out) and
    te_add(te1, te0, out) end the same way, with the same status and the
    same content of the output, for all operands, valid or not. *)
Theorem te_add_commutative (te0 te1 out : tonal_element) :
  te_add te0 te1 out = te_add te1 te0 out.
Proof. apply te_add_comm. Qed.

(** ** The projections determine the element *)

Lemma te_from_dv_cv_projections (e out : tonal_element) (d c : Z) :
  validate_te e = TONAL_OK ->
  te_get_diatonic_value e = Done d ->
  te_get_chromatic_value e = Done c ->
  te_from_dv_cv out d c = Done (TONAL_OK, e).
Proof.
  intros V Hd Hc.
  destruct (te_get_diatonic_value_inv _ _ V Hd) as (-> & B7 & Bd).
  destruct (te_get_chromatic_value_inv _ _ V Hc) as (-> & B12 & Bc).
  pose proof V as V'. apply validate_te_iff in V' as [Hp Ha].
  pose proof (dt_get_mpc_value_bounds _ Hp) as Hm.
  destruct e as [[p a] o].
  unfold diatonic_value, chromatic_value in *.
  cbn [octave te_class diatonic_point alteration] in *.
  destruct (div7 o p Hp) as [Eq Em].
  rewrite te_from_dv_cv_eval; rewrite ?Eq, ?Em;
    try (unfold INT_MIN, INT_MAX in *; lia).
  cbv zeta. rewrite range_check_false by lia.
  rewrite validate_alteration_ok by lia. cbn [is_ok]. te_eq.
Qed.

(** X3. Canonical reconstruction undoes the projections: for a valid
    element whose diatonic and chromatic values are defined,
    te_from_dv_cv on these two values succeeds and returns the element
    itself, whatever the output held before. *)
Theorem te_from_dv_cv_inverts_projections (e out : tonal_element) (d c : Z) :
  validate_te e = TONAL_OK ->
  te_get_diatonic_value e = Done d ->
  te_get_chromatic_value e = Done c ->
  te_from_dv_cv out d c = Done (TONAL_OK, e).
Proof. apply te_from_dv_cv_projections. Qed.

Lemma te_from_dv_cv_inverts_projections_witness :
  te_from_dv_cv TONAL_ELEMENT_ZERO (-1) 1
  = Done (TONAL_OK, mk_te (mk_tc 6 2) (-1)).
Proof.
  apply (te_from_dv_cv_inverts_projections (mk_te (mk_tc 6 2) (-1))
           TONAL_ELEMENT_ZERO (-1) 1); reflexivity.
Defined.

Lemma projections_injective (e1 e2 : tonal_element) (d c : Z) :
  validate_te e1 = TONAL_OK ->
  validate_te e2 = TONAL_OK ->
  te_get_diatonic_value e1 = Done d ->
  te_get_diatonic_value e2 = Done d ->
  te_get_chromatic_value e1 = Done c ->
  te_get_chromatic_value e2 = Done c ->
  e1 = e2.
Proof.
  intros V1 V2 D1 D2 C1 C2.
  pose proof (te_from_dv_cv_projections e1 TONAL_ELEMENT_ZERO d c V1 D1 C1)
    as H1.
  pose proof (te_from_dv_cv_projections e2 TONAL_ELEMENT_ZERO d c V2 D2 C2)
    as H2.
  congruence.
Qed.

(** X4. Two valid elements with the same diatonic value and the same
    chromatic value are the same element: enharmonic elements (same
    chromatic value) always differ in their diatonic value. *)
Theorem projections_determine_element (e1 e2 : tonal_element) (d c : Z) :
  validate_te e1 = TONAL_OK ->
  validate_te e2 = TONAL_OK ->
  te_get_diatonic_value e1 = Done d ->
  te_get_diatonic_value e2 = Done d ->
  te_get_chromatic_value e1 = Done c ->
  te_get_chromatic_value e2 = Done c ->
  e1 = e2.
Proof. apply projections_injective. Qed.

Lemma projections_determine_element_witness :
  mk_te (mk_tc 3 1) 2 = mk_te (mk_tc 3 1) 2.
Proof.
  apply (projections_determine_element
           (mk_te (mk_tc 3 1) 2) (mk_te (mk_tc 3 1) 2) 17 30); reflexivity.
Defined.

(** ** Inversion is an involution *)

(** What a successful te_inv has computed. *)
Lemma te_inv_inv (e i : tonal_element) :
  te_inv e = Done (TONAL_OK, i) ->
  validate_te e = TONAL_OK /\
  exists d c,
    te_get_diatonic_value e = Done d /\
    te_get_chromatic_value e = Done c /\
    INT_MIN <= d <= INT_MAX /\ INT_MIN <= c <= INT_MAX /\
    INT_MIN <= - d <= INT_MAX /\ INT_MIN <= - c <= INT_MAX /\
    validate_te i = TONAL_OK /\
    te_get_diatonic_value i = Done (- d) /\
    te_get_chromatic_value i = Done (- c).
Proof.
  intros H. unfold te_inv in H.
  destruct (validate_te e) eqn:V; cbn [is_ok negb] in H; [|discriminate].
  split; [reflexivity|].
  apply bind_Done_inv in H as (d & Hd & H).
  apply bind_Done_inv in H as (dv & Hdv & H).
  apply bind_Done_inv in H as (c & Hc & H).
  apply bind_Done_inv in H as (cv & Hcv & H).
  apply checked_inv in Hdv as [-> Hdv].
  apply checked_inv in Hcv as [-> Hcv].
  apply te_from_dv_cv_sound in H as (Vi & _ & _ & Gd & Gc); try lia.
  destruct (te_get_diatonic_value_inv _ _ V Hd) as (_ & _ & Bd).
  destruct (te_get_chromatic_value_inv _ _ V Hc) as (_ & _ & Bc).
  exists d, c. auto 12.
Qed.

Lemma te_inv_twice (e i : tonal_element) :
  te_inv e = Done (TONAL_OK, i) -> te_inv i = Done (TONAL_OK, e).
Proof.
  intros H.
  destruct (te_inv_inv _ _ H)
    as (V & d & c & Hd & Hc & Bd & Bc & Bnd & Bnc & Vi & Gd & Gc).
  unfold te_inv. rewrite Vi. cbn [is_ok negb]. rewrite Gd. cbn [bind].
  unfold ineg. rewrite Z.opp_involutive.
  rewrite checked_Done by assumption. cbn [bind]. rewrite Gc. cbn [bind].
  rewrite Z.opp_involutive. rewrite checked_Done by assumption. cbn [bind].
  now apply te_from_dv_cv_projections.
Qed.

(** X5. te_inv is an involution wherever it succeeds: if te_inv turns e
    into i, then te_inv applied to i succeeds and gives back e. *)
Theorem te_inv_involution (e i : tonal_element) :
  te_inv e = Done (TONAL_OK, i) -> te_inv i = Done (TONAL_OK, e).
Proof. apply te_inv_twice. Qed.

Lemma te_inv_involution_witness :
  te_inv (mk_te (mk_tc 5 0) (-1)) = Done (TONAL_OK, mk_te (mk_tc 2 (-1)) 0).
Proof.
  apply (te_inv_involution (mk_te (mk_tc 2 (-1)) 0) (mk_te (mk_tc 5 0) (-1))).
  reflexivity.
Defined.

(** ** Associativity *)

Lemma te_add_ok_valid te0 te1 te2 r :
  te_add te0 te1 te2 = Done (TONAL_OK, r) ->
  validate_te te0 = TONAL_OK /\ validate_te te1 = TONAL_OK.
Proof.
  unfold te_add. intros H.
  destruct (validate_te te0); cbn [is_ok negb] in H; [|discriminate].
  destruct (validate_te te1); cbn [is_ok negb] in H; [|discriminate].
  auto.
Qed.

Lemma te_from_dv_cv_ok_any_output t1 t2 dv cv r :
  te_from_dv_cv t1 dv cv = Done (TONAL_OK, r) ->
  te_from_dv_cv t2 dv cv = Done (TONAL_OK, r).
Proof.
  unfold te_from_dv_cv. intros H.
  destruct (te_reduce dv cv) as [[[o d] c]| |]; cbn [bind] in *;
    try discriminate.
  destruct ((c <? -2) || (13 <? c)); [discriminate | exact H].
Qed.

(** What a successful te_add has computed, with the projections of the
    sum. *)
Lemma te_add_ok_projections te0 te1 te2 r :
  te_add te0 te1 te2 = Done (TONAL_OK, r) ->
  validate_te te0 = TONAL_OK /\ validate_te te1 = TONAL_OK /\
  validate_te r = TONAL_OK /\
  exists d0 d1 c0 c1,
    te_get_diatonic_value te0 = Done d0 /\
    te_get_diatonic_value te1 = Done d1 /\
    te_get_chromatic_value te0 = Done c0 /\
    te_get_chromatic_value te1 = Done c1 /\
    INT_MIN <= d0 + d1 <= INT_MAX /\
    INT_MIN <= c0 + c1 <= INT_MAX /\
    te_get_diatonic_value r = Done (d0 + d1) /\
    te_get_chromatic_value r = Done (c0 + c1) /\
    te_from_dv_cv te2 (d0 + d1) (c0 + c1) = Done (TONAL_OK, r).
Proof.
  intros H. destruct (te_add_ok_valid _ _ _ _ H) as [V0 V1].
  destruct (te_add_inv _ _ _ _ V0 V1 H)
    as (d0 & d1 & c0 & c1 & Hd0 & Hd1 & Hc0 & Hc1 & Hdv & Hcv & Hr).
  pose proof Hr as Hr'.
  apply te_from_dv_cv_sound in Hr' as (V2 & _ & _ & Gd & Gc); try lia.
  repeat (split; [assumption|]).
  exists d0, d1, c0, c1. auto 12.
Qed.

Lemma te_add_assoc (e0 e1 e2 a b r t0 t1 t2 t3 : tonal_element) :
  te_add e0 e1 t0 = Done (TONAL_OK, a) ->
  te_add a e2 t1 = Done (TONAL_OK, r) ->
  te_add e1 e2 t2 = Done (TONAL_OK, b) ->
  te_add e0 b t3 = Done (TONAL_OK, r).
Proof.
  intros Ha Hr Hb.
  destruct (te_add_ok_projections _ _ _ _ Ha)
    as (V0 & V1 & Va & d0 & d1 & c0 & c1 & Hd0 & Hd1 & Hc0 & Hc1 & _ & _
        & Gda & Gca & _).
  destruct (te_add_ok_projections _ _ _ _ Hr)
    as (_ & V2 & Vr & da & d2 & ca & c2 & Hda & Hd2 & Hca & Hc2 & Bd & Bc
        & _ & _ & Fr).
  destruct (te_add_ok_projections _ _ _ _ Hb)
    as (_ & _ & Vb & d1' & d2' & c1' & c2' & Hd1' & Hd2' & Hc1' & Hc2' & _ & _
        & Gdb & Gcb & _).
  assert (da = d0 + d1) by congruence. assert (ca = c0 + c1) by congruence.
  assert (d1' = d1) by congruence. assert (d2' = d2) by congruence.
  assert (c1' = c1) by congruence. assert (c2' = c2) by congruence.
  subst da ca d1' d2' c1' c2'.
  unfold te_add. rewrite V0, Vb. cbn [is_ok negb].
  rewrite Hd0, Gdb. cbn [bind]. unfold iadd.
  rewrite checked_Done by lia. cbn [bind].
  rewrite Hc0, Gcb. cbn [bind].
  rewrite checked_Done by lia. cbn [bind].
  rewrite !Z.add_assoc.
  eapply te_from_dv_cv_ok_any_output. exact Fr.
Qed.

(** X6. te_add is associative: when (e0 + e1) + e2 succeeds and e1 + e2
    succeeds, e0 + (e1 + e2) succeeds with the same element. *)
Theorem te_add_associative (e0 e1 e2 a b r t0 t1 t2 t3 : tonal_element) :
  te_add e0 e1 t0 = Done (TONAL_OK, a) ->
  te_add a e2 t1 = Done (TONAL_OK, r) ->
  te_add e1 e2 t2 = Done (TONAL_OK, b) ->
  te_add e0 b t3 = Done (TONAL_OK, r).
Proof. apply te_add_assoc. Qed.

Lemma te_add_associative_witness :
  te_add (mk_te (mk_tc 2 0) 0) (mk_te (mk_tc 4 0) 0) any_te
  = Done (TONAL_OK, mk_te (mk_tc 6 0) 0).
Proof.
  apply (te_add_associative
           (mk_te (mk_tc 2 0) 0) (mk_te (mk_tc 2 (-1)) 0)
           (mk_te (mk_tc 2 0) 0)
           (mk_te (mk_tc 4 0) 0) (mk_te (mk_tc 4 0) 0) (mk_te (mk_tc 6 0) 0)
           any_te any_te any_te any_te); reflexivity.
Defined.

(** * Further properties of the conversions *)

(** ** The class conversions are total *)

Lemma tpc_to_tc_total (tpc : tonal_pitch_class) (out : tonal_class) :
  tpc_to_tc tpc out =
  if is_ok (validate_tpc tpc)
  then Done (TONAL_OK,
             mk_tc (diatonic_pitch tpc) (pitch_alteration tpc - 2))
  else Done (TONAL_FAIL, out).
Proof.
  destruct (validate_tpc tpc) eqn:V; cbn [is_ok].
  - apply validate_tpc_iff in V as [Hp Ha]. destruct tpc as [p a].
    cbn [diatonic_pitch pitch_alteration] in *.
    destruct (point_cases p Hp) as [->|[->|[->|[->|[->|[->| ->]]]]]];
      destruct (pitch_alteration_cases a Ha) as [->|[->|[->|[->| ->]]]];
      reflexivity.
  - unfold tpc_to_tc. rewrite V. reflexivity.
Qed.

Lemma tc_to_tpc_total (tc : tonal_class) (out : tonal_pitch_class) :
  tc_to_tpc tc out =
  if is_ok (validate_tc tc)
  then Done (TONAL_OK, mk_tpc (diatonic_point tc) (alteration tc + 2))
  else Done (TONAL_FAIL, out).
Proof.
  destruct (validate_tc tc) eqn:V; cbn [is_ok].
  - apply validate_tc_iff in V as [Hp Ha]. destruct tc as [p a].
    cbn [diatonic_point alteration] in *.
    destruct (point_cases p Hp) as [->|[->|[->|[->|[->|[->| ->]]]]]];
      destruct (alteration_cases a Ha) as [->|[->|[->|[->| ->]]]];
      reflexivity.
  - unfold tc_to_tpc. rewrite V. reflexivity.
Qed.

Lemma tic_to_tc_total (tic : tonal_interval_class) (out : tonal_class) :
  tic_to_tc tic out =
  if is_ok (validate_tic tic)
  then Done (TONAL_OK,
             mk_tc (diatonic_interval tic)
                   (tic_to_tc_table (diatonic_interval tic)
                                    (interval_alteration tic)))
  else Done (TONAL_FAIL, out).
Proof.
  destruct (validate_tic tic) eqn:V; cbn [is_ok].
  - destruct (validate_tic_ranges _ V) as [Hp Ha]. destruct tic as [p a].
    cbn [diatonic_interval interval_alteration] in *.
    destruct (point_cases p Hp) as [->|[->|[->|[->|[->|[->| ->]]]]]];
      destruct (pitch_alteration_cases a Ha) as [->|[->|[->|[->| ->]]]];
      try discriminate V; reflexivity.
  - unfold tic_to_tc. rewrite V. reflexivity.
Qed.

Ltac decide_nameable :=
  unfold nameable; cbn [diatonic_point alteration];
  first [ lia | intros Hn; lia ].

Lemma tc_to_tic_total (tc : tonal_class) (out : tonal_interval_class) :
  exists s r,
    tc_to_tic tc out = Done (s, r) /\
    (s = TONAL_OK <-> validate_tc tc = TONAL_OK /\ nameable tc) /\
    (s = TONAL_OK ->
     validate_tic r = TONAL_OK /\
     diatonic_interval r = diatonic_point tc /\
     tic_to_tc_table (diatonic_interval r) (interval_alteration r)
     = alteration tc).
Proof.
  destruct (validate_tc tc) eqn:V.
  - apply validate_tc_iff in V as [Hp Ha]. destruct tc as [p a], out as [op oa].
    cbn [diatonic_point alteration] in *.
    destruct (point_cases p Hp) as [->|[->|[->|[->|[->|[->| ->]]]]]];
      destruct (alteration_cases a Ha) as [->|[->|[->|[->| ->]]]];
      do 2 eexists; (split; [reflexivity|]);
      (split;
       [ split;
         [ first [ discriminate
                 | intros _; split; [reflexivity | decide_nameable] ]
         | first [ intros _; reflexivity
                 | intros [_ Hn]; exfalso; revert Hn; decide_nameable ] ]
       | first [ discriminate | intros _; repeat split ] ]).
  - exists TONAL_FAIL, out. unfold tc_to_tic. rewrite V.
    split; [reflexivity|]. split; [|discriminate].
    split; [discriminate | intros [? _]; discriminate].
Qed.

(** X7. The four class conversions always return: none of their
    assertions can fire and none of their arithmetic can overflow.
    tpc_to_tc, tc_to_tpc and tic_to_tc report TONAL_OK exactly on the
    inputs their validator accepts; tc_to_tic reports TONAL_OK exactly on
    the valid classes that name an interval (alteration -1..1 on point 0,
    3 or 4, alteration -2..1 on the other points), and then its output is
    a legal interval class. *)
Theorem class_conversions_total :
  (forall tpc out, exists s r,
      tpc_to_tc tpc out = Done (s, r) /\
      (s = TONAL_OK <-> validate_tpc tpc = TONAL_OK)) /\
  (forall tc out, exists s r,
      tc_to_tpc tc out = Done (s, r) /\
      (s = TONAL_OK <-> validate_tc tc = TONAL_OK)) /\
  (forall tic out, exists s r,
      tic_to_tc tic out = Done (s, r) /\
      (s = TONAL_OK <-> validate_tic tic = TONAL_OK)) /\
  (forall tc out, exists s r,
      tc_to_tic tc out = Done (s, r) /\
      (s = TONAL_OK <-> validate_tc tc = TONAL_OK /\ nameable tc) /\
      (s = TONAL_OK -> validate_tic r = TONAL_OK)).
Proof.
  split; [|split; [|split]].
  - intros tpc out. rewrite tpc_to_tc_total.
    destruct (validate_tpc tpc); cbn [is_ok]; do 2 eexists;
      (split; [reflexivity|]); split; congruence.
  - intros tc out. rewrite tc_to_tpc_total.
    destruct (validate_tc tc); cbn [is_ok]; do 2 eexists;
      (split; [reflexivity|]); split; congruence.
  - intros tic out. rewrite tic_to_tc_total.
    destruct (validate_tic tic); cbn [is_ok]; do 2 eexists;
      (split; [reflexivity|]); split; congruence.
  - intros tc out.
    destruct (tc_to_tic_total tc out) as (s & r & H & Hiff & Hok).
    exists s, r. split; [assumption|]. split; [assumption|].
    intros Hs. now apply Hok.
Qed.

(** X8. tc_get_mpc_value always returns: its range assertion cannot fire.
    The value is INT_MIN exactly when the class is invalid, and lies in
    {-2..13} otherwise; dt_get_mpc_value is INT_MIN exactly outside
    {0..6} and lies in {0..11} inside. *)
Theorem mpc_values_in_range :
  (forall tc, exists v,
      tc_get_mpc_value tc = Done v /\
      (validate_tc tc = TONAL_OK -> -2 <= v <= 13) /\
      (v = INT_MIN <-> validate_tc tc = TONAL_FAIL)) /\
  (forall dt,
      (0 <= dt <= 6 -> 0 <= dt_get_mpc_value dt <= 11) /\
      (dt_get_mpc_value dt = INT_MIN <-> dt < 0 \/ 6 < dt)).
Proof.
  split.
  - intros tc. destruct (validate_tc tc) eqn:V.
    + rewrite (tc_get_mpc_value_valid _ V).
      apply validate_tc_iff in V as [Hp Ha].
      pose proof (dt_get_mpc_value_bounds _ Hp) as Hm.
      eexists. split; [reflexivity|]. split; [lia|].
      split; [unfold INT_MIN; lia | discriminate].
    + unfold tc_get_mpc_value. rewrite V. cbn [is_ok negb].
      exists INT_MIN. split; [reflexivity|]. split; [discriminate|].
      split; reflexivity.
  - intros dt. split; [apply dt_get_mpc_value_bounds|].
    destruct (Z_lt_le_dec dt 0) as [Hlt|Hge].
    { unfold dt_get_mpc_value.
      replace (dt <? 0) with true by (symmetry; now apply Z.ltb_lt).
      cbn [orb]. split; [lia | reflexivity]. }
    destruct (Z_lt_le_dec 6 dt) as [Hgt|Hle].
    { unfold dt_get_mpc_value.
      replace (Z.of_nat (length DT_TO_MPC_TABLE) <=? dt) with true
        by (symmetry; apply Z.leb_le; cbn; lia).
      rewrite orb_true_r. split; [lia | reflexivity]. }
    pose proof (dt_get_mpc_value_bounds dt ltac:(lia)) as Hm.
    unfold INT_MIN. lia.
Qed.

(** ** Round trips that start from the unified representation *)

Lemma tc_to_tpc_back tc out tpc out' :
  tc_to_tpc tc out = Done (TONAL_OK, tpc) ->
  tpc_to_tc tpc out' = Done (TONAL_OK, tc).
Proof.
  rewrite tc_to_tpc_total. destruct (validate_tc tc) eqn:V; cbn [is_ok];
    [|discriminate].
  intros [= <-]. apply validate_tc_iff in V as [Hp Ha].
  rewrite tpc_to_tc_total.
  assert (validate_tpc (mk_tpc (diatonic_point tc) (alteration tc + 2))
          = TONAL_OK) as ->
      by (apply validate_tpc_iff; cbn [diatonic_pitch pitch_alteration]; lia).
  cbn [is_ok diatonic_pitch pitch_alteration].
  destruct tc as [p a]. cbn [diatonic_point alteration].
  do 3 f_equal. lia.
Qed.

Lemma tc_to_tic_back tc out tic out' :
  tc_to_tic tc out = Done (TONAL_OK, tic) ->
  tic_to_tc tic out' = Done (TONAL_OK, tc).
Proof.
  intros H. destruct (tc_to_tic_total tc out) as (s & r & H' & _ & Hok).
  rewrite H in H'. injection H' as <- <-.
  destruct (Hok eq_refl) as (V & Hp & Ha).
  rewrite tic_to_tc_total, V. cbn [is_ok]. rewrite Ha, Hp. now destruct tc.
Qed.

Lemma te_to_tp_back te out tp out' :
  te_to_tp te out = Done (TONAL_OK, tp) ->
  tp_to_te tp out' = Done (TONAL_OK, te).
Proof.
  unfold te_to_tp. intros H.
  destruct (validate_te te) eqn:V; cbn [is_ok negb] in H; [|discriminate].
  apply bind_Done_inv in H as ([s tpc] & Hc & H).
  destruct s; cbn [is_ok negb] in H; [|discriminate].
  apply assert_bind_inv in H as [Vp H]. apply is_ok_true in Vp.
  injection H as <-. cbn [tp_class] in *.
  unfold tp_to_te. rewrite Vp. cbn [is_ok negb tp_class tp_octave].
  rewrite (tc_to_tpc_back _ _ _ (te_class out') Hc).
  cbn [bind is_ok negb te_class octave].
  replace (mk_te (te_class te) (octave te)) with te by now destruct te.
  rewrite V. reflexivity.
Qed.

(** What a successful te_to_ti has done. *)
Lemma te_to_ti_ok_inv te out ti :
  te_to_ti te out = Done (TONAL_OK, ti) ->
  validate_te te = TONAL_OK /\ validate_ti ti = TONAL_OK /\
  validate_tic (ti_class ti) = TONAL_OK /\
  ((0 <= octave te /\
    tc_to_tic (te_class te) (ti_class out) = Done (TONAL_OK, ti_class ti) /\
    ti = mk_ti (ti_class ti) (octave te) ID_UP) \/
   (octave te < 0 /\
    exists i, te_inv te = Done (TONAL_OK, i) /\
      tc_to_tic (te_class i) (ti_class out) = Done (TONAL_OK, ti_class ti) /\
      ti = mk_ti (ti_class ti) (octave i) ID_DOWN)).
Proof.
  unfold te_to_ti. intros H.
  destruct (validate_te te) eqn:V; cbn [is_ok negb] in H; [|discriminate].
  apply bind_Done_inv in H as ([s t] & Hb & H).
  destruct s; cbn [is_ok negb] in H; [|discriminate].
  apply assert_bind_inv in H as [_ H].
  apply assert_bind_inv in H as [Vt H]. apply is_ok_true in Vt.
  injection H as <-.
  split; [reflexivity|]. split; [assumption|].
  replace (mk_te (mk_tc (diatonic_point (te_class te))
                        (alteration (te_class te))) (octave te))
    with te in Hb by now destruct te as [[? ?] ?].
  destruct (octave te >=? 0) eqn:Ho.
  - rewrite Z.geb_leb in Ho. apply Z.leb_le in Ho.
    apply bind_Done_inv in Hb as ([s tic] & Hc & Hb).
    destruct s; cbn [is_ok negb] in Hb; [|discriminate].
    injection Hb as <-. cbn [ti_class] in *.
    destruct (tc_to_tic_total (te_class te) (ti_class out))
      as (s & r & H' & _ & Hok).
    rewrite Hc in H'. injection H' as <- <-.
    split; [apply (Hok eq_refl)|]. left. auto.
  - rewrite Z.geb_leb in Ho. apply Z.leb_gt in Ho.
    apply bind_Done_inv in Hb as ([s i] & Hi & Hb).
    destruct s; cbn [is_ok negb] in Hb; [|discriminate].
    apply bind_Done_inv in Hb as ([s tic] & Hc & Hb).
    destruct s; cbn [is_ok negb] in Hb; [|discriminate].
    injection Hb as <-. cbn [ti_class] in *.
    destruct (tc_to_tic_total (te_class i) (ti_class out))
      as (s & r & H' & _ & Hok).
    rewrite Hc in H'. injection H' as <- <-.
    split; [apply (Hok eq_refl)|]. right. split; [assumption|].
    exists i. auto.
Qed.

Lemma te_to_ti_back te out ti out' :
  te_to_ti te out = Done (TONAL_OK, ti) ->
  ti_to_te ti out' = Done (TONAL_OK, te).
Proof.
  intros H.
  destruct (te_to_ti_ok_inv _ _ _ H) as (V & Vt & _ & Hcase).
  unfold ti_to_te. rewrite Vt. cbn [is_ok negb].
  destruct Hcase as [(Ho & Hc & E) | (Ho & i & Hi & Hc & E)].
  - rewrite (tc_to_tic_back _ _ _ (te_class out') Hc).
    cbn [bind is_ok negb te_class octave].
    rewrite E. cbn [ti_octave interval_direction].
    replace (mk_te (te_class te) (octave te)) with te by now destruct te.
    rewrite V. cbn [is_ok assert bind].
    change (ID_DOWN =? ID_UP) with false. cbn [bind]. rewrite V. reflexivity.
  - rewrite (tc_to_tic_back _ _ _ (te_class out') Hc).
    cbn [bind is_ok negb te_class octave].
    rewrite E. cbn [ti_octave interval_direction].
    replace (mk_te (te_class i) (octave i)) with i by now destruct i.
    destruct (te_inv_inv _ _ Hi) as (_ & d & c & _ & _ & _ & _ & _ & _ & Vi & _).
    rewrite Vi. cbn [is_ok assert bind].
    change (ID_DOWN =? ID_DOWN) with true.
    rewrite (te_inv_twice _ _ Hi). cbn [bind is_ok assert]. rewrite V.
    reflexivity.
Qed.

(** X9. The conversions out of the unified representation are undone by
    the conversions into it, without exception: whenever tc_to_tpc,
    tc_to_tic, te_to_tp or te_to_ti succeeds, converting its output back
    with tpc_to_tc, tic_to_tc, tp_to_te or ti_to_te succeeds and returns
    the original class or element. *)
Theorem unified_roundtrips :
  (forall tc out tpc out',
      tc_to_tpc tc out = Done (TONAL_OK, tpc) ->
      tpc_to_tc tpc out' = Done (TONAL_OK, tc)) /\
  (forall tc out tic out',
      tc_to_tic tc out = Done (TONAL_OK, tic) ->
      tic_to_tc tic out' = Done (TONAL_OK, tc)) /\
  (forall te out tp out',
      te_to_tp te out = Done (TONAL_OK, tp) ->
      tp_to_te tp out' = Done (TONAL_OK, te)) /\
  (forall te out ti out',
      te_to_ti te out = Done (TONAL_OK, ti) ->
      ti_to_te ti out' = Done (TONAL_OK, te)).
Proof.
  split; [exact tc_to_tpc_back|]. split; [exact tc_to_tic_back|].
  split; [exact te_to_tp_back | exact te_to_ti_back].
Qed.

(** ** When te_to_ti aborts *)

Lemma te_to_ti_aborts_on_diminished_prime (out : tonal_interval) :
  te_to_ti (mk_te (mk_tc 0 (-1)) 0) out = Abort.
Proof. destruct out as [[di ia] o d]. reflexivity. Qed.



(** ** The setters *)

Lemma tic_set_total (tic : tonal_interval_class) (di ia : Z) :
  tic_set tic di ia =
  if is_ok (validate_tic (mk_tic di ia))
  then Done (TONAL_OK, mk_tic di ia)
  else Done (TONAL_FAIL, tic).
Proof.
  unfold tic_set.
  assert (validate_tic (mk_tic di ia) =
          (if negb (is_ok (validate_diatonic_interval di))
           then validate_diatonic_interval di
           else if negb (is_ok (validate_interval_alteration ia))
                then validate_interval_alteration ia
                else if CHAR_x =? tic_to_tc_table di ia
                     then TONAL_FAIL else TONAL_OK)) as E by reflexivity.
  destruct (validate_diatonic_interval di); cbn [is_ok negb] in *;
    [|rewrite E; reflexivity].
  destruct (validate_interval_alteration ia); cbn [is_ok negb] in *;
    [|rewrite E; reflexivity].
  destruct (CHAR_x =? tic_to_tc_table di ia); rewrite E; reflexivity.
Qed.

Lemma ti_set_total (ti : tonal_interval) (di ia o d : Z) :
  ti_set ti di ia o d =
  if is_ok (validate_tic (mk_tic di ia))
  then Done (validate_ti (mk_ti (mk_tic di ia) o d),
             mk_ti (mk_tic di ia) o d)
  else Done (TONAL_FAIL, ti).
Proof.
  unfold ti_set. rewrite tic_set_total.
  destruct (validate_tic (mk_tic di ia)); cbn [is_ok bind negb ti_class];
    [reflexivity|].
  now destruct ti.
Qed.

(** X11. ti_set always returns.  It reports TONAL_OK exactly when the
    (interval, alteration) pair is legal in the table, the octave is not
    negative, the direction is Up or Down, and the interval is not a
    diminished prime of octave 0; the output then holds the four
    arguments.  An illegal pair leaves the output as it was; a legal pair
    is stored together with octave and direction even when the call then
    fails. *)
Theorem ti_set_accepts_iff (ti : tonal_interval) (di ia o d : Z) :
  exists s r,
    ti_set ti di ia o d = Done (s, r) /\
    (s = TONAL_OK <->
     validate_tic (mk_tic di ia) = TONAL_OK /\ 0 <= o /\
     (d = ID_UP \/ d = ID_DOWN) /\
     ~ (o = 0 /\ di = DI_PRIME /\ ia = IA_DIMINISHED)) /\
    (validate_tic (mk_tic di ia) = TONAL_OK ->
     r = mk_ti (mk_tic di ia) o d) /\
    (validate_tic (mk_tic di ia) = TONAL_FAIL -> r = ti).
Proof.
  rewrite ti_set_total.
  destruct (validate_tic (mk_tic di ia)) eqn:V; cbn [is_ok].
  - do 2 eexists. split; [reflexivity|].
    split; [|split; [reflexivity | discriminate]].
    rewrite validate_ti_iff.
    cbn [ti_octave ti_class interval_direction diatonic_interval
         interval_alteration].
    tauto.
  - do 2 eexists. split; [reflexivity|].
    split; [|split; [discriminate | reflexivity]].
    split; [discriminate | intros [? _]; discriminate].
Qed.

Lemma tpc_set_total (tpc : tonal_pitch_class) (dp pa : Z) :
  tpc_set tpc dp pa =
  if is_ok (validate_tpc (mk_tpc dp pa))
  then Done (TONAL_OK, mk_tpc dp pa)
  else Done (TONAL_FAIL, tpc).
Proof.
  unfold tpc_set.
  assert (validate_tpc (mk_tpc dp pa) =
          (if negb (is_ok (validate_diatonic_pitch dp))
           then validate_diatonic_pitch dp
           else if negb (is_ok (validate_pitch_alteration pa))
                then validate_pitch_alteration pa
                else TONAL_OK)) as E by reflexivity.
  destruct (validate_diatonic_pitch dp); cbn [is_ok negb] in *;
    [|rewrite E; reflexivity].
  destruct (validate_pitch_alteration pa); rewrite E; reflexivity.
Qed.

(** X12. tp_set on a valid (pitch, alteration) pair succeeds for an octave
    that is not negative, and aborts for a negative octave: the octave is
    stored unchecked and the closing assertion on validate_tp fails.  On
    an invalid pair it reports failure and leaves the output as it was. *)
Theorem tp_set_behaviour (tp : tonal_pitch) (dp pa o : Z) :
  tp_set tp dp pa o =
  if is_ok (validate_tpc (mk_tpc dp pa))
  then (if o <? 0 then Abort
        else Done (TONAL_OK, mk_tp (mk_tpc dp pa) o))
  else Done (TONAL_FAIL, tp).
Proof.
  unfold tp_set. rewrite tpc_set_total.
  destruct (validate_tpc (mk_tpc dp pa)) eqn:V;
    cbn [is_ok bind negb tp_class].
  - unfold validate_tp. cbn [tp_octave tp_class]. rewrite V.
    destruct (o <? 0); reflexivity.
  - now destruct tp.
Qed.

(** * Further properties of the public operations *)

Lemma tp_to_te_total (tp : tonal_pitch) (out : tonal_element) :
  tp_to_te tp out =
  if is_ok (validate_tp tp)
  then Done (TONAL_OK,
             mk_te (mk_tc (diatonic_pitch (tp_class tp))
                          (pitch_alteration (tp_class tp) - 2))
                   (tp_octave tp))
  else Done (TONAL_FAIL, out).
Proof.
  unfold tp_to_te. destruct (validate_tp tp) eqn:V; cbn [is_ok negb];
    [|reflexivity].
  apply validate_tp_iff in V as [Ho Vc].
  rewrite tpc_to_tc_total, Vc. cbn [is_ok bind negb te_class octave].
  apply validate_tpc_iff in Vc as [Hp Ha].
  assert (validate_te
            (mk_te (mk_tc (diatonic_pitch (tp_class tp))
                          (pitch_alteration (tp_class tp) - 2))
                   (tp_octave tp)) = TONAL_OK) as ->
      by (apply validate_te_iff; cbn [te_class diatonic_point alteration];
          lia).
  reflexivity.
Qed.

(** ** Uninitialised locals *)

Lemma result_of_bind {A B} (m : outcome A) (k1 k2 : A -> outcome (status * B)) :
  (forall a, result_of (k1 a) = result_of (k2 a)) ->
  result_of (bind m k1) = result_of (bind m k2).
Proof. intros H. destruct m; cbn [bind]; [apply H | reflexivity ..]. Qed.

Lemma bind_status_indep {A B} (m1 m2 : outcome (status * A)) (out : B)
    (K1 K2 : A -> outcome (status * B)) :
  result_of m1 = result_of m2 ->
  (forall a, K1 a = K2 a) ->
  bind m1 (fun r => let '(ret, a) := r in
                    if negb (is_ok ret) then Done (ret, out) else K1 a)
  = bind m2 (fun r => let '(ret, a) := r in
                      if negb (is_ok ret) then Done (ret, out) else K2 a).
Proof.
  intros Hm HK.
  destruct m1 as [[[] a1]| |], m2 as [[[] a2]| |]; cbn in *;
    try discriminate; try reflexivity.
  injection Hm as ->. apply HK.
Qed.

Lemma tp_to_te_indep tp j1 j2 :
  result_of (tp_to_te tp j1) = result_of (tp_to_te tp j2).
Proof. rewrite !tp_to_te_total. destruct (validate_tp tp); reflexivity. Qed.

Lemma ti_to_te_indep ti j1 j2 :
  result_of (ti_to_te ti j1) = result_of (ti_to_te ti j2).
Proof.
  unfold ti_to_te. destruct (validate_ti ti); cbn [is_ok negb];
    [|reflexivity].
  rewrite !tic_to_tc_total.
  destruct (validate_tic (ti_class ti)); reflexivity.
Qed.

Lemma te_from_dv_cv_indep j1 j2 dv cv :
  result_of (te_from_dv_cv j1 dv cv) = result_of (te_from_dv_cv j2 dv cv).
Proof.
  unfold te_from_dv_cv.
  destruct (te_reduce dv cv) as [[[o d] c]| |]; cbn [bind];
    try reflexivity.
  destruct ((c <? -2) || (13 <? c)); reflexivity.
Qed.

Lemma te_add_indep te0 te1 j1 j2 :
  result_of (te_add te0 te1 j1) = result_of (te_add te0 te1 j2).
Proof.
  unfold te_add.
  destruct (validate_te te0); cbn [is_ok negb]; [|reflexivity].
  destruct (validate_te te1); cbn [is_ok negb]; [|reflexivity].
  do 6 (apply result_of_bind; intros ?).
  apply te_from_dv_cv_indep.
Qed.

Lemma te_sub_indep te0 te1 j1 j2 :
  result_of (te_sub te0 te1 j1) = result_of (te_sub te0 te1 j2).
Proof.
  unfold te_sub.
  destruct (validate_te te0); cbn [is_ok negb]; [|reflexivity].
  destruct (validate_te te1); cbn [is_ok negb]; [|reflexivity].
  apply result_of_bind. intros [s i].
  destruct s; cbn [is_ok negb]; [apply te_add_indep | reflexivity].
Qed.

(** X13. The result of a public operation does not depend on what its
    automatic tonal_element variables held before their first assignment:
    tp_add, ti_add, tp_sub, ti_sub and tp_to_mnn end the same way, with the
    same output, for any two indeterminate initial contents. *)
Theorem public_operations_ignore_indeterminate (j1 j2 : tonal_element) :
  (forall tp ti out, tp_add j1 tp ti out = tp_add j2 tp ti out) /\
  (forall ti0 ti1 out, ti_add j1 ti0 ti1 out = ti_add j2 ti0 ti1 out) /\
  (forall tp0 tp1 out, tp_sub j1 tp0 tp1 out = tp_sub j2 tp0 tp1 out) /\
  (forall ti0 ti1 out, ti_sub j1 ti0 ti1 out = ti_sub j2 ti0 ti1 out) /\
  (forall tp, tp_to_mnn j1 tp = tp_to_mnn j2 tp).
Proof.
  repeat split.
  - intros tp ti out. unfold tp_add. cbv zeta.
    apply bind_status_indep; [apply tp_to_te_indep|]. intros e0.
    apply bind_status_indep; [apply ti_to_te_indep|]. intros e1.
    apply bind_status_indep; [apply te_add_indep|]. reflexivity.
  - intros ti0 ti1 out. unfold ti_add. cbv zeta.
    apply bind_status_indep; [apply ti_to_te_indep|]. intros e0.
    apply bind_status_indep; [apply ti_to_te_indep|]. intros e1.
    apply bind_status_indep; [apply te_add_indep|]. reflexivity.
  - intros tp0 tp1 out. unfold tp_sub. cbv zeta.
    apply bind_status_indep; [apply tp_to_te_indep|]. intros e0.
    apply bind_status_indep; [apply tp_to_te_indep|]. intros e1.
    apply bind_status_indep; [apply te_sub_indep|]. reflexivity.
  - intros ti0 ti1 out. unfold ti_sub. cbv zeta.
    apply bind_status_indep; [apply ti_to_te_indep|]. intros e0.
    apply bind_status_indep; [apply ti_to_te_indep|]. intros e1.
    apply bind_status_indep; [apply te_sub_indep|]. reflexivity.
  - intros tp. unfold tp_to_mnn. cbv zeta. rewrite !tp_to_te_total.
    destruct (validate_tp tp); reflexivity.
Qed.

(** ** Successful results are valid *)

Lemma bind_status_ok_inv {A B} (m : outcome (status * A)) (out : B)
    (K : A -> outcome (status * B)) (s : B) :
  bind m (fun r => let '(ret, a) := r in
                   if negb (is_ok ret) then Done (ret, out) else K a)
  = Done (TONAL_OK, s) ->
  exists a, m = Done (TONAL_OK, a) /\ K a = Done (TONAL_OK, s).
Proof.
  destruct m as [[[] a]| |]; cbn; intros H; try discriminate. eauto.
Qed.

Lemma tp_add_ok_inv j tp ti out s :
  tp_add j tp ti out = Done (TONAL_OK, s) ->
  exists e0 e1 e2,
    tp_to_te tp j = Done (TONAL_OK, e0) /\
    ti_to_te ti j = Done (TONAL_OK, e1) /\
    te_add e0 e1 j = Done (TONAL_OK, e2) /\
    te_to_tp e2 out = Done (TONAL_OK, s).
Proof.
  unfold tp_add. cbv zeta. intros H.
  apply bind_status_ok_inv in H as (e0 & H0 & H).
  apply bind_status_ok_inv in H as (e1 & H1 & H).
  apply bind_status_ok_inv in H as (e2 & H2 & H).
  exists e0, e1, e2. auto.
Qed.

Lemma ti_add_ok_inv j ti0 ti1 out s :
  ti_add j ti0 ti1 out = Done (TONAL_OK, s) ->
  exists e0 e1 e2,
    ti_to_te ti0 j = Done (TONAL_OK, e0) /\
    ti_to_te ti1 j = Done (TONAL_OK, e1) /\
    te_add e0 e1 j = Done (TONAL_OK, e2) /\
    te_to_ti e2 out = Done (TONAL_OK, s).
Proof.
  unfold ti_add. cbv zeta. intros H.
  apply bind_status_ok_inv in H as (e0 & H0 & H).
  apply bind_status_ok_inv in H as (e1 & H1 & H).
  apply bind_status_ok_inv in H as (e2 & H2 & H).
  exists e0, e1, e2. auto.
Qed.

Lemma tp_sub_ok_inv j tp0 tp1 out s :
  tp_sub j tp0 tp1 out = Done (TONAL_OK, s) ->
  exists e0 e1 e2,
    tp_to_te tp0 j = Done (TONAL_OK, e0) /\
    tp_to_te tp1 j = Done (TONAL_OK, e1) /\
    te_sub e0 e1 j = Done (TONAL_OK, e2) /\
    te_to_ti e2 out = Done (TONAL_OK, s).
Proof.
  unfold tp_sub. cbv zeta. intros H.
  apply bind_status_ok_inv in H as (e0 & H0 & H).
  apply bind_status_ok_inv in H as (e1 & H1 & H).
  apply bind_status_ok_inv in H as (e2 & H2 & H).
  exists e0, e1, e2. auto.
Qed.

Lemma ti_sub_ok_inv j ti0 ti1 out s :
  ti_sub j ti0 ti1 out = Done (TONAL_OK, s) ->
  exists e0 e1 e2,
    ti_to_te ti0 j = Done (TONAL_OK, e0) /\
    ti_to_te ti1 j = Done (TONAL_OK, e1) /\
    te_sub e0 e1 j = Done (TONAL_OK, e2) /\
    te_to_ti e2 out = Done (TONAL_OK, s).
Proof.
  unfold ti_sub. cbv zeta. intros H.
  apply bind_status_ok_inv in H as (e0 & H0 & H).
  apply bind_status_ok_inv in H as (e1 & H1 & H).
  apply bind_status_ok_inv in H as (e2 & H2 & H).
  exists e0, e1, e2. auto.
Qed.

Lemma te_to_tp_ok_valid te out tp :
  te_to_tp te out = Done (TONAL_OK, tp) -> validate_tp tp = TONAL_OK.
Proof.
  intros H. pose proof (te_to_tp_back _ _ _ TONAL_ELEMENT_ZERO H) as Hb.
  rewrite tp_to_te_total in Hb.
  destruct (validate_tp tp); [reflexivity | discriminate].
Qed.

(** X14. Whatever a public operation returns with TONAL_OK is valid: the
    pitch of tp_add passes validate_tp, and the interval of ti_add, tp_sub
    and ti_sub passes validate_ti and has a legal interval class. *)
Theorem public_results_are_valid (j : tonal_element) :
  (forall tp ti out s,
      tp_add j tp ti out = Done (TONAL_OK, s) -> validate_tp s = TONAL_OK) /\
  (forall ti0 ti1 out s,
      ti_add j ti0 ti1 out = Done (TONAL_OK, s) ->
      validate_ti s = TONAL_OK /\ validate_tic (ti_class s) = TONAL_OK) /\
  (forall tp0 tp1 out s,
      tp_sub j tp0 tp1 out = Done (TONAL_OK, s) ->
      validate_ti s = TONAL_OK /\ validate_tic (ti_class s) = TONAL_OK) /\
  (forall ti0 ti1 out s,
      ti_sub j ti0 ti1 out = Done (TONAL_OK, s) ->
      validate_ti s = TONAL_OK /\ validate_tic (ti_class s) = TONAL_OK).
Proof.
  repeat match goal with |- _ /\ _ => split end.
  - intros tp ti out s H.
    apply tp_add_ok_inv in H as (e0 & e1 & e2 & _ & _ & _ & H).
    now apply te_to_tp_ok_valid in H.
  - intros ti0 ti1 out s H.
    apply ti_add_ok_inv in H as (e0 & e1 & e2 & _ & _ & _ & H).
    apply te_to_ti_ok_inv in H as (_ & ? & ? & _). auto.
  - intros tp0 tp1 out s H.
    apply tp_sub_ok_inv in H as (e0 & e1 & e2 & _ & _ & _ & H).
    apply te_to_ti_ok_inv in H as (_ & ? & ? & _). auto.
  - intros ti0 ti1 out s H.
    apply ti_sub_ok_inv in H as (e0 & e1 & e2 & _ & _ & _ & H).
    apply te_to_ti_ok_inv in H as (_ & ? & ? & _). auto.
Qed.

(** ** MIDI note numbers *)

Lemma tp_to_mnn_total (j : tonal_element) (tp : tonal_pitch) :
  tp_to_mnn j tp =
  if is_ok (validate_tp tp)
  then te_get_chromatic_value
         (mk_te (mk_tc (diatonic_pitch (tp_class tp))
                       (pitch_alteration (tp_class tp) - 2))
                (tp_octave tp))
  else Done INT_MIN.
Proof.
  unfold tp_to_mnn. cbv zeta. rewrite tp_to_te_total.
  destruct (validate_tp tp); reflexivity.
Qed.

(** X15. tp_to_mnn returns INT_MIN for a pitch that validate_tp rejects.
    For a valid pitch whose octave o satisfies 12 * o + 13 <= INT_MAX it
    returns 12 * o + mpc(diatonic pitch) + (alteration - PA_), a number
    that is at least -2, so never the error value. *)
Theorem tp_to_mnn_value (j : tonal_element) (tp : tonal_pitch) :
  (validate_tp tp = TONAL_FAIL -> tp_to_mnn j tp = Done INT_MIN) /\
  (validate_tp tp = TONAL_OK ->
   12 * tp_octave tp + 13 <= INT_MAX ->
   tp_to_mnn j tp
   = Done (12 * tp_octave tp
           + dt_get_mpc_value (diatonic_pitch (tp_class tp))
           + (pitch_alteration (tp_class tp) - PA_)) /\
   -2 <= 12 * tp_octave tp
         + dt_get_mpc_value (diatonic_pitch (tp_class tp))
         + (pitch_alteration (tp_class tp) - PA_)).
Proof.
  rewrite tp_to_mnn_total. split.
  - intros ->. reflexivity.
  - intros V Hb. rewrite V. cbn [is_ok].
    apply validate_tp_iff in V as [Ho Vc].
    apply validate_tpc_iff in Vc as [Hp Ha].
    pose proof (dt_get_mpc_value_bounds _ Hp) as Hm.
    unfold PA_. split; [|lia].
    rewrite te_get_chromatic_value_eval;
      unfold chromatic_value;
      cbn [octave te_class diatonic_point alteration];
      [ reflexivity
      | apply validate_te_iff; cbn [te_class diatonic_point alteration]; lia
      | unfold INT_MIN, INT_MAX in *; lia .. ].
Qed.

Lemma tp_to_mnn_of_tp_add (j : tonal_element) (tp : tonal_pitch)
    (ti : tonal_interval) (out sum : tonal_pitch) :
  tp_add j tp ti out = Done (TONAL_OK, sum) ->
  exists m e c,
    tp_to_mnn j tp = Done m /\
    ti_to_te ti j = Done (TONAL_OK, e) /\
    te_get_chromatic_value e = Done c /\
    tp_to_mnn j sum = Done (m + c).
Proof.
  intros H.
  apply tp_add_ok_inv in H as (e0 & e1 & e2 & H0 & H1 & H2 & H3).
  destruct (te_add_ok_projections _ _ _ _ H2)
    as (_ & _ & _ & d0 & d1 & c0 & c1 & _ & _ & Hc0 & Hc1 & _ & _ & _ & Gc & _).
  exists c0, e1, c1. unfold tp_to_mnn. cbv zeta.
  rewrite H0, (te_to_tp_back _ _ _ j H3). cbn [bind is_ok negb]. auto.
Qed.

(** X16. Transposition adds semitones: when tp_add succeeds, the MIDI note
    number of the sum is the MIDI note number of the pitch plus the
    chromatic value of the element of the interval (negative for a
    direction Down). *)
Theorem tp_add_adds_note_numbers (j : tonal_element) (tp : tonal_pitch)
    (ti : tonal_interval) (out sum : tonal_pitch) :
  tp_add j tp ti out = Done (TONAL_OK, sum) ->
  exists m e c,
    tp_to_mnn j tp = Done m /\
    ti_to_te ti j = Done (TONAL_OK, e) /\
    te_get_chromatic_value e = Done c /\
    tp_to_mnn j sum = Done (m + c).
Proof. apply tp_to_mnn_of_tp_add. Qed.

Lemma tp_add_adds_note_numbers_witness :
  exists m e c,
    tp_to_mnn any_te (mk_tp (mk_tpc DP_G PA_) 0) = Done m /\
    ti_to_te (mk_ti (mk_tic DI_FOURTH IA_PERFECT) 0 ID_UP) any_te
    = Done (TONAL_OK, e) /\
    te_get_chromatic_value e = Done c /\
    tp_to_mnn any_te (mk_tp (mk_tpc DP_C PA_) 1) = Done (m + c).
Proof.
  apply (tp_add_adds_note_numbers any_te (mk_tp (mk_tpc DP_G PA_) 0)
           (mk_ti (mk_tic DI_FOURTH IA_PERFECT) 0 ID_UP) any_tp
           (mk_tp (mk_tpc DP_C PA_) 1)).
  reflexivity.
Defined.

(** ** Differences of pitches *)

Lemma te_sub_ok_inv te0 te1 te2 r :
  te_sub te0 te1 te2 = Done (TONAL_OK, r) ->
  validate_te te0 = TONAL_OK /\ validate_te te1 = TONAL_OK /\
  exists i, te_inv te1 = Done (TONAL_OK, i) /\
            te_add te0 i te2 = Done (TONAL_OK, r).
Proof.
  unfold te_sub. intros H.
  destruct (validate_te te0); cbn [is_ok negb] in H; [|discriminate].
  destruct (validate_te te1); cbn [is_ok negb] in H; [|discriminate].
  apply bind_Done_inv in H as ([s i] & Hi & H).
  destruct s; cbn [is_ok negb] in H; [|discriminate].
  repeat split. exists i. auto.
Qed.

(** Adding the difference back to the subtracted element. *)
Lemma te_add_te_sub (te0 te1 t r out : tonal_element) :
  te_sub te0 te1 t = Done (TONAL_OK, r) ->
  te_add te1 r out = Done (TONAL_OK, te0).
Proof.
  intros H. apply te_sub_ok_inv in H as (V0 & V1 & i & Hi & Ha).
  destruct (te_inv_inv _ _ Hi)
    as (_ & d1 & c1 & Hd1 & Hc1 & Bd1 & Bc1 & _ & _ & Vi & Gd & Gc).
  destruct (te_add_ok_projections _ _ _ _ Ha)
    as (_ & _ & Vr & d0 & di & c0 & ci & Hd0 & Hdi & Hc0 & Hci & _ & _
        & Rd & Rc & _).
  assert (di = - d1) by congruence. assert (ci = - c1) by congruence.
  subst di ci.
  destruct (te_get_diatonic_value_inv _ _ V0 Hd0) as (_ & _ & Bd0).
  destruct (te_get_chromatic_value_inv _ _ V0 Hc0) as (_ & _ & Bc0).
  unfold te_add. rewrite V1, Vr. cbn [is_ok negb].
  rewrite Hd1, Rd. cbn [bind]. unfold iadd.
  replace (d1 + (d0 + - d1)) with d0 by lia.
  rewrite checked_Done by assumption. cbn [bind].
  rewrite Hc1, Rc. cbn [bind].
  replace (c1 + (c0 + - c1)) with c0 by lia.
  rewrite checked_Done by assumption. cbn [bind].
  now apply te_from_dv_cv_projections.
Qed.

Lemma tp_to_te_ok_any_output tp j j' e :
  tp_to_te tp j = Done (TONAL_OK, e) -> tp_to_te tp j' = Done (TONAL_OK, e).
Proof.
  rewrite !tp_to_te_total. destruct (validate_tp tp); cbn [is_ok];
    [auto | discriminate].
Qed.

Lemma tp_add_tp_sub (j j' : tonal_element) (tp0 tp1 : tonal_pitch)
    (out diff : tonal_interval) (out' : tonal_pitch) :
  tp_sub j tp0 tp1 out = Done (TONAL_OK, diff) ->
  tp_add j' tp1 diff out' = Done (TONAL_OK, tp0).
Proof.
  intros H. apply tp_sub_ok_inv in H as (e0 & e1 & r & H0 & H1 & Hs & Ht).
  assert (validate_tp tp0 = TONAL_OK) as V0.
  { rewrite tp_to_te_total in H0.
    destruct (validate_tp tp0); [reflexivity | discriminate]. }
  destruct (tp_roundtrip tp0 j out' V0) as (e0' & H0' & Hback).
  assert (e0' = e0) by congruence. subst e0'.
  unfold tp_add. cbv zeta.
  rewrite (tp_to_te_ok_any_output _ _ j' _ H1). cbn [bind is_ok negb].
  rewrite (te_to_ti_back _ _ _ j' Ht). cbn [bind is_ok negb].
  rewrite (te_add_te_sub _ _ _ _ j' Hs). cbn [bind is_ok negb].
  exact Hback.
Qed.

(** X17. tp_sub and tp_add fit together: when tp_sub(tp0, tp1, diff)
    succeeds, tp_add(tp1, diff, sum) succeeds and sets sum to tp0.  The
    interval returned by tp_sub leads from its second operand to its
    first. *)
Theorem tp_sub_then_tp_add (j j' : tonal_element) (tp0 tp1 : tonal_pitch)
    (out diff : tonal_interval) (out' : tonal_pitch) :
  tp_sub j tp0 tp1 out = Done (TONAL_OK, diff) ->
  tp_add j' tp1 diff out' = Done (TONAL_OK, tp0).
Proof. apply tp_add_tp_sub. Qed.

Lemma tp_sub_then_tp_add_witness :
  tp_add any_te (mk_tp (mk_tpc DP_C PA_) 1)
         (mk_ti (mk_tic DI_FOURTH IA_PERFECT) 0 ID_DOWN) any_tp
  = Done (TONAL_OK, mk_tp (mk_tpc DP_G PA_) 0).
Proof.
  apply (tp_sub_then_tp_add any_te any_te
           (mk_tp (mk_tpc DP_G PA_) 0) (mk_tp (mk_tpc DP_C PA_) 1)
           any_ti (mk_ti (mk_tic DI_FOURTH IA_PERFECT) 0 ID_DOWN) any_tp).
  reflexivity.
Defined.

(** X18. A successful te_sub(te0, te1, te2) returns the element whose
    diatonic and chromatic values are those of te0 minus those of te1,
    obtained as te_add(te0, te_inv(te1)); adding it to te1 with te_add
    succeeds and gives te0 back. *)
Theorem te_sub_is_first_minus_second (te0 te1 te2 r out : tonal_element) :
  te_sub te0 te1 te2 = Done (TONAL_OK, r) ->
  (exists i, te_inv te1 = Done (TONAL_OK, i) /\
             te_add te0 i te2 = Done (TONAL_OK, r)) /\
  diatonic_value r = diatonic_value te0 - diatonic_value te1 /\
  chromatic_value r = chromatic_value te0 - chromatic_value te1 /\
  te_add te1 r out = Done (TONAL_OK, te0).
Proof.
  intros H. pose proof H as H'.
  apply te_sub_ok_inv in H' as (V0 & V1 & _).
  destruct (te_sub_value _ _ _ _ V0 V1 H) as (Hi & Hd & Hc).
  repeat split; try assumption.
  eapply te_add_te_sub. exact H.
Qed.

Lemma te_sub_is_first_minus_second_witness :
  te_add (mk_te (mk_tc 0 0) 1) (mk_te (mk_tc 4 0) (-1)) any_te
  = Done (TONAL_OK, mk_te (mk_tc 4 0) 0).
Proof.
  apply (te_sub_is_first_minus_second
           (mk_te (mk_tc 4 0) 0) (mk_te (mk_tc 0 0) 1) any_te
           (mk_te (mk_tc 4 0) (-1)) any_te).
  reflexivity.
Defined.

Lemma te_of_valid_tp (tp : tonal_pitch) :
  validate_tp tp = TONAL_OK ->
  validate_te (mk_te (mk_tc (diatonic_pitch (tp_class tp))
                            (pitch_alteration (tp_class tp) - 2))
                     (tp_octave tp)) = TONAL_OK /\
  0 <= tp_octave tp.
Proof.
  intros V. apply validate_tp_iff in V as [Ho Vc].
  apply validate_tpc_iff in Vc as [Hp Ha].
  split; [|assumption].
  apply validate_te_iff. cbn [te_class diatonic_point alteration]. lia.
Qed.

(** X19. The pitch subtracted by tp_sub must be invertible: when the
    second operand is a double sharp on D, E, A or B (of an octave o with
    12 * (o + 1) <= INT_MAX), tp_sub reports failure for every valid first
    operand and leaves the output as it was. *)
Theorem tp_sub_fails_on_double_sharp (j : tonal_element)
    (tp0 tp1 : tonal_pitch) (out : tonal_interval) :
  validate_tp tp0 = TONAL_OK ->
  validate_tp tp1 = TONAL_OK ->
  12 * (tp_octave tp1 + 1) <= INT_MAX ->
  pitch_alteration (tp_class tp1) = PA_ss ->
  diatonic_pitch (tp_class tp1) = DP_D \/
  diatonic_pitch (tp_class tp1) = DP_E \/
  diatonic_pitch (tp_class tp1) = DP_A \/
  diatonic_pitch (tp_class tp1) = DP_B ->
  tp_sub j tp0 tp1 out = Done (TONAL_FAIL, out).
Proof.
  intros V0 V1 Hb Hss Hp.
  destruct (te_of_valid_tp _ V0) as [Ve0 _].
  destruct (te_of_valid_tp _ V1) as [Ve1 Ho1].
  unfold tp_sub. cbv zeta. rewrite !tp_to_te_total, V0, V1.
  cbn [is_ok bind negb].
  set (e0 := mk_te _ (tp_octave tp0)) in *.
  set (e1 := mk_te _ (tp_octave tp1)) in *.
  assert (exists e', te_inv e1 = Done (TONAL_FAIL, e')) as [e' Hi].
  { apply te_inv_fails_iff; [assumption| |].
    - unfold invertible_octave, INT_MIN, INT_MAX in *. cbn [octave e1]. lia.
    - unfold uninvertible, e1. cbn [te_class diatonic_point alteration].
      unfold PA_ss, DP_D, DP_E, DP_A, DP_B in *. lia. }
  unfold te_sub. rewrite Ve0, Ve1. cbn [is_ok negb]. rewrite Hi.
  reflexivity.
Qed.

Lemma tp_sub_fails_on_double_sharp_witness :
  tp_sub any_te (mk_tp (mk_tpc DP_C PA_) 4) (mk_tp (mk_tpc DP_D PA_ss) 4)
         any_ti
  = Done (TONAL_FAIL, any_ti).
Proof.
  apply (tp_sub_fails_on_double_sharp any_te
           (mk_tp (mk_tpc DP_C PA_) 4) (mk_tp (mk_tpc DP_D PA_ss) 4) any_ti).
  - reflexivity.
  - reflexivity.
  - unfold INT_MAX. simpl. lia.
  - reflexivity.
  - left. reflexivity.
Defined.

(** X20. The difference of a pitch with itself is the perfect prime of
    octave 0 and direction Up, for every valid pitch (of an octave o with
    12 * (o + 1) <= INT_MAX) that is not a double sharp on D, E, A or
    B. *)
Theorem tp_sub_of_equal_pitches (j : tonal_element) (tp : tonal_pitch)
    (out : tonal_interval) :
  validate_tp tp = TONAL_OK ->
  12 * (tp_octave tp + 1) <= INT_MAX ->
  ~ (pitch_alteration (tp_class tp) = PA_ss /\
     (diatonic_pitch (tp_class tp) = DP_D \/
      diatonic_pitch (tp_class tp) = DP_E \/
      diatonic_pitch (tp_class tp) = DP_A \/
      diatonic_pitch (tp_class tp) = DP_B)) ->
  tp_sub j tp tp out
  = Done (TONAL_OK, mk_ti (mk_tic DI_PRIME IA_PERFECT) 0 ID_UP).
Proof.
  intros V Hb Hn.
  destruct (te_of_valid_tp _ V) as [Ve Ho].
  unfold tp_sub. cbv zeta. rewrite !tp_to_te_total, V.
  cbn [is_ok bind negb].
  set (e := mk_te _ (tp_octave tp)) in *.
  assert (invertible_octave (octave e)) as Hinv
      by (unfold invertible_octave, INT_MIN, INT_MAX in *; cbn [octave e];
          lia).
  destruct (te_inv e) as [[s i]| |] eqn:Hi.
  - destruct s.
    + unfold te_sub. rewrite Ve. cbn [is_ok negb]. rewrite Hi.
      cbn [bind is_ok negb].
      rewrite (te_inv_cancels e i j Ve Hi). cbn [bind is_ok negb].
      destruct out as [[di ia] o d]. reflexivity.
    + exfalso. apply Hn.
      assert (uninvertible e) as [Ha Hp]
          by (apply (te_inv_fails_iff e Ve Hinv); eauto).
      unfold e in Ha, Hp. cbn [te_class diatonic_point alteration] in Ha, Hp.
      unfold PA_ss, DP_D, DP_E, DP_A, DP_B. lia.
  - exfalso. now apply (te_inv_no_abort e).
  - exfalso. rewrite (te_inv_eval e Ve Hinv) in Hi. cbv zeta in Hi.
    destruct (diatonic_point (te_class e) =? 0); [discriminate|].
    destruct ((diatonic_point (te_class e) =? 3)
              || (diatonic_point (te_class e) =? 4)); [discriminate|].
    destruct (alteration (te_class e) =? 2); discriminate.
Qed.

Lemma tp_sub_of_equal_pitches_witness :
  tp_sub any_te (mk_tp (mk_tpc DP_F PA_ss) 3) (mk_tp (mk_tpc DP_F PA_ss) 3)
         any_ti
  = Done (TONAL_OK, mk_ti (mk_tic DI_PRIME IA_PERFECT) 0 ID_UP).
Proof.
  apply (tp_sub_of_equal_pitches any_te (mk_tp (mk_tpc DP_F PA_ss) 3) any_ti).
  - reflexivity.
  - unfold INT_MAX. simpl. lia.
  - simpl. intros [_ [H|[H|[H|H]]]]; discriminate H.
Defined.

(** ** When the public operations abort *)

Lemma te_to_tp_total (te : tonal_element) (out : tonal_pitch) :
  te_to_tp te out =
  if is_ok (validate_te te)
  then (if octave te <? 0 then Abort
        else Done (TONAL_OK,
                   mk_tp (mk_tpc (diatonic_point (te_class te))
                                 (alteration (te_class te) + 2))
                         (octave te)))
  else Done (TONAL_FAIL, out).
Proof.
  unfold te_to_tp. destruct (validate_te te) eqn:V; cbn [is_ok negb];
    [|reflexivity].
  rewrite tc_to_tpc_total. unfold validate_te in V. rewrite V.
  cbn [is_ok bind negb tp_class]. unfold validate_tp.
  cbn [tp_octave tp_class].
  apply validate_tc_iff in V as [Hp Ha].
  assert (validate_tpc (mk_tpc (diatonic_point (te_class te))
                               (alteration (te_class te) + 2)) = TONAL_OK)
    as -> by (apply validate_tpc_iff;
              cbn [diatonic_pitch pitch_alteration]; lia).
  destruct (octave te <? 0); reflexivity.
Qed.

(** X21. te_to_tp never reports failure on a valid element: it succeeds
    with the pitch {point, alteration + PA_, octave} when the octave is not
    negative, and aborts when it is.  It reports failure, leaving the
    output as it was, exactly on the elements validate_te rejects. *)
Theorem te_to_tp_behaviour (te : tonal_element) (out : tonal_pitch) :
  te_to_tp te out =
  if is_ok (validate_te te)
  then (if octave te <? 0 then Abort
        else Done (TONAL_OK,
                   mk_tp (mk_tpc (diatonic_point (te_class te))
                                 (alteration (te_class te) + PA_))
                         (octave te)))
  else Done (TONAL_FAIL, out).
Proof. apply te_to_tp_total. Qed.








Lemma te_inv_succeeds (e : tonal_element) :
  validate_te e = TONAL_OK ->
  invertible_octave (octave e) ->
  ~ uninvertible e ->
  exists i, te_inv e = Done (TONAL_OK, i).
Proof.
  intros V Hinv Hn.
  destruct (te_inv e) as [[s i]| |] eqn:Hi.
  - destruct s; [eauto|].
    exfalso. apply Hn. apply (te_inv_fails_iff e V Hinv). eauto.
  - exfalso. now apply (te_inv_no_abort e).
  - exfalso. rewrite (te_inv_eval e V Hinv) in Hi. cbv zeta in Hi.
    destruct (diatonic_point (te_class e) =? 0); [discriminate|].
    destruct ((diatonic_point (te_class e) =? 3)
              || (diatonic_point (te_class e) =? 4)); [discriminate|].
    destruct (alteration (te_class e) =? 2); discriminate.
Qed.

Lemma te_from_dv_cv_diminished_prime out :
  te_from_dv_cv out 0 (-1) = Done (TONAL_OK, mk_te (mk_tc 0 (-1)) 0).
Proof. reflexivity. Qed.

(** X23. tp_sub cannot return a descending augmented prime: for two valid
    pitches on the same letter and octave (12 * (octave + 1) <= INT_MAX),
    the second one chromatic step above the first and not a double sharp on
    D, E, A or B, tp_sub(lower, higher, diff) aborts.  The difference is
    the element {point 0, alteration -1, octave 0}, which te_to_ti turns
    into a diminished prime of octave 0 and then rejects by assertion. *)
Theorem tp_sub_aborts_one_step_below (j : tonal_element) (dp pa o : Z)
    (out : tonal_interval) :
  validate_tp (mk_tp (mk_tpc dp pa) o) = TONAL_OK ->
  validate_tp (mk_tp (mk_tpc dp (pa + 1)) o) = TONAL_OK ->
  12 * (o + 1) <= INT_MAX ->
  ~ (pa + 1 = PA_ss /\ (dp = DP_D \/ dp = DP_E \/ dp = DP_A \/ dp = DP_B)) ->
  tp_sub j (mk_tp (mk_tpc dp pa) o) (mk_tp (mk_tpc dp (pa + 1)) o) out
  = Abort.
Proof.
  intros V0 V1 Hb Hn.
  destruct (te_of_valid_tp _ V0) as [Ve0 Ho].
  destruct (te_of_valid_tp _ V1) as [Ve1 _].
  cbn [tp_class tp_octave diatonic_pitch pitch_alteration] in *.
  assert (invertible_octave o) as Hinv
      by (unfold invertible_octave, INT_MIN, INT_MAX in *; lia).
  destruct (te_inv_succeeds (mk_te (mk_tc dp (pa + 1 - 2)) o) Ve1 Hinv)
    as [i Hi].
  { unfold uninvertible. cbn [te_class diatonic_point alteration].
    unfold PA_ss, DP_D, DP_E, DP_A, DP_B in Hn. lia. }
  destruct (te_inv_inv _ _ Hi)
    as (_ & d & c & Hd & Hc & Bd & Bc & _ & _ & Vi & Gd & Gc).
  destruct (te_get_diatonic_value_inv _ _ Ve1 Hd) as (Ed & B7 & _).
  destruct (te_get_chromatic_value_inv _ _ Ve1 Hc) as (Ec & B12 & _).
  pose proof Ve0 as Ve0'. apply validate_te_iff in Ve0' as [Hp Ha].
  pose proof (dt_get_mpc_value_bounds _ Hp) as Hm.
  unfold diatonic_value, chromatic_value in *.
  cbn [octave te_class diatonic_point alteration] in *.
  assert (te_get_diatonic_value (mk_te (mk_tc dp (pa - 2)) o) = Done d) as Hd0.
  { rewrite te_get_diatonic_value_eval; unfold diatonic_value;
      cbn [octave te_class diatonic_point alteration];
      [congruence | assumption | assumption | lia]. }
  assert (te_get_chromatic_value (mk_te (mk_tc dp (pa - 2)) o) = Done (c - 1))
    as Hc0.
  { rewrite te_get_chromatic_value_eval; unfold chromatic_value;
      cbn [octave te_class diatonic_point alteration];
      [ f_equal; lia | assumption | assumption
      | unfold INT_MIN, INT_MAX in *; lia ]. }
  assert (te_sub (mk_te (mk_tc dp (pa - 2)) o)
                 (mk_te (mk_tc dp (pa + 1 - 2)) o) j
          = Done (TONAL_OK, mk_te (mk_tc 0 (-1)) 0)) as Hs.
  { unfold te_sub. rewrite Ve0, Ve1. cbn [is_ok negb]. rewrite Hi.
    cbn [bind is_ok negb].
    unfold te_add. rewrite Ve0, Vi. cbn [is_ok negb].
    rewrite Hd0, Gd, Hc0, Gc. cbn [bind]. unfold iadd.
    rewrite Z.add_opp_diag_r. change (checked 0) with (Done 0). cbn [bind].
    replace (c - 1 + - c) with (-1) by lia.
    change (checked (-1)) with (Done (-1)). cbn [bind].
    apply te_from_dv_cv_diminished_prime. }
  unfold tp_sub. cbv zeta. rewrite !tp_to_te_total, V0, V1.
  cbn [is_ok bind negb tp_class tp_octave diatonic_pitch pitch_alteration].
  rewrite Hs. cbn [bind is_ok negb].
  apply te_to_ti_aborts_on_diminished_prime.
Qed.

Lemma tp_sub_aborts_one_step_below_witness :
  tp_sub any_te (mk_tp (mk_tpc DP_C PA_) 4) (mk_tp (mk_tpc DP_C PA_s) 4)
         any_ti
  = Abort.
Proof.
  apply (tp_sub_aborts_one_step_below any_te DP_C PA_ 4 any_ti).
  - reflexivity.
  - reflexivity.
  - unfold INT_MAX. simpl. lia.
  - intros [_ [H|[H|[H|H]]]]; discriminate H.
Defined.


(** X25. ti_add is commutative where it succeeds: if ti_add(ti0, ti1)
    returns an interval, ti_add(ti1, ti0) returns the same interval. *)
Theorem ti_add_commutative (j : tonal_element) (ti0 ti1 out sum : tonal_interval) :
  ti_add j ti0 ti1 out = Done (TONAL_OK, sum) ->
  ti_add j ti1 ti0 out = Done (TONAL_OK, sum).
Proof.
  intros H. apply ti_add_ok_inv in H as (e0 & e1 & e2 & H0 & H1 & H2 & H3).
  unfold ti_add. cbv zeta. rewrite H1. cbn [bind is_ok negb].
  rewrite H0. cbn [bind is_ok negb]. rewrite te_add_comm, H2.
  cbn [bind is_ok negb]. exact H3.
Qed.

Lemma ti_add_commutative_witness :
  ti_add any_te (mk_ti (mk_tic DI_THIRD IA_MINOR) 0 ID_UP)
         (mk_ti (mk_tic DI_THIRD IA_MAJOR) 0 ID_UP) any_ti
  = Done (TONAL_OK, mk_ti (mk_tic DI_FIFTH IA_PERFECT) 0 ID_UP).
Proof.
  apply (ti_add_commutative any_te
           (mk_ti (mk_tic DI_THIRD IA_MAJOR) 0 ID_UP)
           (mk_ti (mk_tic DI_THIRD IA_MINOR) 0 ID_UP) any_ti
           (mk_ti (mk_tic DI_FIFTH IA_PERFECT) 0 ID_UP)).
  reflexivity.
Defined.
